(** * Log-processing worker: a shallow embedding of [logProcessingWorker.ts]

    The development follows the worker source: the string helpers the
    worker relies on (code units, [split], [parseInt], [toLowerCase],
    [includes]), the two regular expressions ([LOG_REGEX] and the
    dotted-quad pattern of [extractIPsFromText]) written as backtracking
    matchers in continuation-passing style, the statistics accumulator,
    the retrying download, and the job handler with its safety timer.

    Conventions.
    - A JavaScript string is a [string] of 8-bit code units (the Latin-1
      range); character classes and case mapping are the ECMAScript ones
      restricted to that range.
    - JavaScript numbers that only ever hold counters, sizes or
      milliseconds are [nat] or [Z]; the loss of precision of doubles
      beyond 2^53 is outside the model.
    - [Record<string, number>] objects are [gmap string nat]. *)

From Stdlib Require Import ZArith Ascii String List Bool Lia.
From stdpp Require Import base option list gmap strings pretty.

Set Warnings "-register-all".

Local Open Scope string_scope.
Local Open Scope list_scope.

(** ** Code units and strings *)

Module Js.

Definition code (c : ascii) : nat := nat_of_ascii c.

Definition between (lo hi : nat) (c : ascii) : bool :=
  Nat.leb lo (code c) && Nat.leb (code c) hi.

(** [\d] *)
Definition isDigit (c : ascii) : bool := between 48 57 c.

(** [\w] : [A-Za-z0-9_] *)
Definition isWord (c : ascii) : bool :=
  between 65 90 c || between 97 122 c || isDigit c || Nat.eqb (code c) 95.

(** LineTerminator: LF and CR (U+2028 and U+2029 are outside the range). *)
Definition isLineTerminator (c : ascii) : bool :=
  Nat.eqb (code c) 10 || Nat.eqb (code c) 13.

(** [\s], which is also what [trim] and [parseInt] strip:
    TAB, LF, VT, FF, CR, SP, NBSP. *)
Definition isSpace (c : ascii) : bool :=
  between 9 13 c || Nat.eqb (code c) 32 || Nat.eqb (code c) 160.

(** [.] without the [s] flag: anything but a line terminator. *)
Definition isDot (c : ascii) : bool := negb (isLineTerminator c).

(** [String.prototype.toLowerCase] on one code unit: A-Z, and the
    Latin-1 capitals U+00C0..U+00DE except the multiplication sign. *)
Definition lowerChar (c : ascii) : ascii :=
  if between 65 90 c then ascii_of_nat (code c + 32)
  else if between 192 222 c && negb (Nat.eqb (code c) 215)
       then ascii_of_nat (code c + 32)
       else c.

Fixpoint toLowerCase (s : string) : string :=
  match s with
  | EmptyString => EmptyString
  | String c s' => String (lowerChar c) (toLowerCase s')
  end.

Fixpoint startsWith (p s : string) : bool :=
  match p, s with
  | EmptyString, _ => true
  | String a p', String b s' => Ascii.eqb a b && startsWith p' s'
  | String _ _, EmptyString => false
  end.

(** [s.includes(k)] *)
Fixpoint includes (s k : string) : bool :=
  startsWith k s ||
  match s with
  | EmptyString => false
  | String _ s' => includes s' k
  end.

Fixpoint forallbS (p : ascii -> bool) (s : string) : bool :=
  match s with
  | EmptyString => true
  | String c s' => p c && forallbS p s'
  end.

Fixpoint dropWhile (p : ascii -> bool) (s : string) : string :=
  match s with
  | EmptyString => EmptyString
  | String c s' => if p c then dropWhile p s' else s
  end.

Fixpoint takeWhile (p : ascii -> bool) (s : string) : string :=
  match s with
  | EmptyString => EmptyString
  | String c s' => if p c then String c (takeWhile p s') else EmptyString
  end.

Fixpoint rev_acc (s acc : string) : string :=
  match s with
  | EmptyString => acc
  | String c s' => rev_acc s' (String c acc)
  end.

Definition rev (s : string) : string := rev_acc s EmptyString.

(** [s.trim()] *)
Definition trim (s : string) : string :=
  rev (dropWhile isSpace (rev (dropWhile isSpace s))).

(** [s.split(sep)] for a one-character separator: the pieces between the
    separators, so that the empty string gives one empty piece. *)
Fixpoint split_acc (sep : ascii) (s : string) (cur : string) : list string :=
  match s with
  | EmptyString => [rev cur]
  | String c s' =>
      if Ascii.eqb c sep then rev cur :: split_acc sep s' EmptyString
      else split_acc sep s' (String c cur)
  end.

Definition split (sep : ascii) (s : string) : list string :=
  split_acc sep s EmptyString.

Definition digitVal (c : ascii) : Z := Z.of_nat (code c - 48).

Fixpoint digitsVal (s : string) (acc : Z) : Z :=
  match s with
  | EmptyString => acc
  | String c s' => digitsVal s' (10 * acc + digitVal c)%Z
  end.

(** [parseInt(s, 10)]: skip leading white space, take an optional sign,
    then the longest run of decimal digits; [None] is NaN.  With radix 10
    no [0x] prefix is stripped.  A negative zero is the integer 0, which
    agrees with it on every comparison the worker makes. *)
Definition parseInt (s : string) : option Z :=
  let s1 := dropWhile isSpace s in
  let '(sign, s2) :=
    match s1 with
    | String "-" r => ((-1)%Z, r)
    | String "+" r => (1%Z, r)
    | _ => (1%Z, s1)
    end in
  let ds := takeWhile isDigit s2 in
  match ds with
  | EmptyString => None
  | _ => Some (sign * digitsVal ds 0)%Z
  end.

End Js.

(** ** [isIPAddress] *)

(** The callback of [parts.every]. *)
Definition isIPPart (part : string) : bool :=
  match Js.parseInt part with
  | None => false
  | Some num => Z.leb 0 num && Z.leb num 255
  end.

Definition isIPAddress (str : string) : bool :=
  let parts := Js.split "." str in
  if negb (Nat.eqb (length parts) 4) then false
  else forallb isIPPart parts.

(** ** Regular expressions as backtracking matchers

    A matcher receives the input that is left and a continuation, as
    in the ECMAScript definition of pattern semantics; a quantifier
    calls the continuation at each of its choices, in the order a
    backtracking engine explores them, and keeps the first success. *)

Module Re.

Section Matchers.
Context {R : Type}.

(** What a capturing quantifier hands on: the text it consumed and the
    input that is left. *)
Definition Cont : Type := string -> string -> option R.

Definition snoc (acc : string) (c : ascii) : string :=
  acc +:+ String c EmptyString.

(** One literal character. *)
Definition lit (d : ascii) (s : string) (k : string -> option R) : option R :=
  match s with
  | String c s' => if Ascii.eqb d c then k s' else None
  | EmptyString => None
  end.

(** [p*?]: the continuation first, one more character only when it fails. *)
Fixpoint lazy_star (p : ascii -> bool) (acc s : string) (k : Cont) : option R :=
  match k acc s with
  | Some r => Some r
  | None =>
      match s with
      | String c s' => if p c then lazy_star p (snoc acc c) s' k else None
      | EmptyString => None
      end
  end.

(** [p*]: as many characters as possible, giving them back one by one. *)
Fixpoint greedy_star (p : ascii -> bool) (acc s : string) (k : Cont) : option R :=
  match s with
  | String c s' =>
      if p c then
        match greedy_star p (snoc acc c) s' k with
        | Some r => Some r
        | None => k acc s
        end
      else k acc s
  | EmptyString => k acc s
  end.

(** [p+] *)
Definition greedy_plus (p : ascii -> bool) (s : string) (k : Cont) : option R :=
  match s with
  | String c s' => if p c then greedy_star p (String c EmptyString) s' k else None
  | EmptyString => None
  end.

(** [p{0,n}], greedy. *)
Fixpoint greedy_upto (n : nat) (p : ascii -> bool) (acc s : string) (k : Cont)
  : option R :=
  match n with
  | O => k acc s
  | S n' =>
      match s with
      | String c s' =>
          if p c then
            match greedy_upto n' p (snoc acc c) s' k with
            | Some r => Some r
            | None => k acc s
            end
          else k acc s
      | EmptyString => k acc s
      end
  end.

(** [p{1,3}] appended to what was matched so far. *)
Definition greedy_1_3 (p : ascii -> bool) (acc s : string) (k : Cont) : option R :=
  match s with
  | String c s' => if p c then greedy_upto 2 p (snoc acc c) s' k else None
  | EmptyString => None
  end.

(** [$] without the [m] flag. *)
Definition eol (s : string) (r : R) : option R :=
  match s with
  | EmptyString => Some r
  | String _ _ => None
  end.

End Matchers.

Definition isWordOpt (c : option ascii) : bool :=
  match c with
  | Some c => Js.isWord c
  | None => false
  end.

Definition head (s : string) : option ascii :=
  match s with
  | String c _ => Some c
  | EmptyString => None
  end.

Fixpoint lastChar (s : string) : option ascii :=
  match s with
  | EmptyString => None
  | String c EmptyString => Some c
  | String _ s' => lastChar s'
  end.

(** [\b] between the character before the position and the one at it. *)
Definition wordBoundary (prev : option ascii) (s : string) : bool :=
  xorb (isWordOpt prev) (isWordOpt (head s)).

End Re.

(** The groups of a successful [LOG_REGEX] match: timestamp, level,
    message, and the optional fourth group. *)
Definition LogMatch : Type := string * string * string * option string.

(** The optional tail [(?:\s+(\{.*\}))?] followed by [$], after a message
    [msg] with [s] left. The group is tried first; skipping it leaves the
    fourth capture undefined. *)
Definition LOG_REGEX_tail (ts lvl msg s : string) : option LogMatch :=
  match
    Re.greedy_plus Js.isSpace s (fun _ s1 =>
    Re.lit "{" s1 (fun s2 =>
    Re.greedy_star Js.isDot EmptyString s2 (fun body s3 =>
    Re.lit "}" s3 (fun s4 =>
    Re.eol s4 (ts, lvl, msg, Some ("{" +:+ body +:+ "}"))))))
  with
  | Some r => Some r
  | None => Re.eol s (ts, lvl, msg, None)
  end.

(** [LOG_REGEX] tried at the start of [s]:
    [\[(.*?)\]\s+(\w+)\s+(.*?)(?:\s+(\{.*\}))?$]. *)
Definition LOG_REGEX_here (s : string) : option LogMatch :=
  Re.lit "[" s (fun s1 =>
  Re.lazy_star Js.isDot EmptyString s1 (fun ts s2 =>
  Re.lit "]" s2 (fun s3 =>
  Re.greedy_plus Js.isSpace s3 (fun _ s4 =>
  Re.greedy_plus Js.isWord s4 (fun lvl s5 =>
  Re.greedy_plus Js.isSpace s5 (fun _ s6 =>
  Re.lazy_star Js.isDot EmptyString s6 (fun msg s7 =>
  LOG_REGEX_tail ts lvl msg s7))))))).

(** [line.match(LOG_REGEX)]: the pattern is not anchored at the start,
    so every start position is tried from left to right. *)
Fixpoint LOG_REGEX (line : string) : option LogMatch :=
  match LOG_REGEX_here line with
  | Some r => Some r
  | None =>
      match line with
      | String _ rest => LOG_REGEX rest
      | EmptyString => None
      end
  end.

(** [ipv4Regex] tried at the start of [s], [prev] being the character
    before it: [\b\d{1,3}\.\d{1,3}\.\d{1,3}\.\d{1,3}\b]. The result is
    the matched text. *)
Definition ipv4Regex_here (prev : option ascii) (s : string) : option string :=
  if negb (Re.wordBoundary prev s) then None else
  Re.greedy_1_3 Js.isDigit EmptyString s (fun a s1 =>
  Re.lit "." s1 (fun s2 =>
  Re.greedy_1_3 Js.isDigit (Re.snoc a ".") s2 (fun b s3 =>
  Re.lit "." s3 (fun s4 =>
  Re.greedy_1_3 Js.isDigit (Re.snoc b ".") s4 (fun c s5 =>
  Re.lit "." s5 (fun s6 =>
  Re.greedy_1_3 Js.isDigit (Re.snoc c ".") s6 (fun d s7 =>
  if Re.wordBoundary (Re.lastChar d) s7 then Some d else None))))))).

(** [text.match(ipv4Regex)] with the [g] flag: all matches from left to
    right, the search resuming where the last match ended. [skip] counts
    the characters of the last match that are still to be passed over.
    The empty list stands for the [null] of no match. *)
Fixpoint ipv4Regex_from (prev : option ascii) (skip : nat) (s : string)
  : list string :=
  match s with
  | EmptyString => []
  | String c s' =>
      match skip with
      | S n => ipv4Regex_from (Some c) n s'
      | O =>
          match ipv4Regex_here prev s with
          | Some m => m :: ipv4Regex_from (Some c) (String.length m - 1) s'
          | None => ipv4Regex_from (Some c) 0 s'
          end
      end
  end.

Definition ipv4Regex (text : string) : list string :=
  ipv4Regex_from None 0 text.

(** ** JSON values and results of calls that may throw *)

(** What [JSON.parse] builds. An object lists its own properties in the
    order [Object.entries] gives them; a number keeps its literal, the
    worker never looks at it. *)
Inductive Json : Type :=
  | JNull
  | JBool (b : bool)
  | JNum (literal : string)
  | JStr (s : string)
  | JArr (items : list Json)
  | JObj (props : list (string * Json)).

(** A call either returns or throws; an error is identified with its
    message, which is all the worker ever reads of it. *)
Inductive JsResult (A : Type) : Type :=
  | Returns (a : A)
  | Throws (message : string).
Arguments Returns {A} a.
Arguments Throws {A} message.

(** ** The statistics accumulator *)

Record LogStats : Type := mkLogStats {
  totalEntries : nat;
  errorCount : nat;
  keywordMatches : gmap string nat;
  ipAddresses : gmap string nat;
  processingTime : Z
}.

Record ParsedLog : Type := mkParsedLog {
  timestamp : string;
  level : string;
  message : string;
  jsonPayload : Json
}.

(** [KEYWORDS]: the comma-separated [MONITORED_KEYWORDS] of the
    environment, or the default list when it is unset or empty, each
    item trimmed and lower-cased. *)
Definition KEYWORDS (env : option string) : list string :=
  let raw :=
    match env with
    | None | Some EmptyString => "error,exception,fail,timeout"
    | Some v => v
    end in
  map (fun k => Js.toLowerCase (Js.trim k)) (Js.split "," raw).

(** [o[k] = v] for a number [v], on an object made by an object literal.
    An own property is created or updated, with one exception: while the
    object has no own property [__proto__], that key is the accessor it
    inherits from [Object.prototype], whose setter ignores a value that is
    neither an object nor [null]. *)
Definition assign (k : string) (v : nat) (o : gmap string nat)
  : gmap string nat :=
  if String.eqb k "__proto__" && bool_decide (o !! k = None) then o
  else <[k := v]> o.

(** [o[k] = (o[k] || 0) + 1], for the keys its callers pass: strings that
    [isIPAddress] accepts, none of which names a property the object
    inherits. *)
Definition bump (k : string) (o : gmap string nat) : gmap string nat :=
  <[k := default 0 (o !! k) + 1]> o.

(** [o[k]++]: an own property is incremented.  Without an own property
    [__proto__], [o["__proto__"]++] reads the inherited accessor and hands
    NaN to its setter, which ignores it: the object is left as it was.
    (On any other missing key JavaScript would store NaN;
    [processLogFile] creates every such key before it increments it, see
    [foldLines_inv].) *)
Definition incr (k : string) (o : gmap string nat) : gmap string nat :=
  alter S k o.

Definition withIps (stats : LogStats) (ips : gmap string nat) : LogStats :=
  mkLogStats (totalEntries stats) (errorCount stats) (keywordMatches stats)
             ips (processingTime stats).

(** [extractIPs] on the [ipAddresses] object: a string value that passes
    [isIPAddress] is counted, a nested object or array is walked. *)
Fixpoint extractIPs_ips (obj : Json) (ips : gmap string nat) {struct obj}
  : gmap string nat :=
  let visit (value : Json) (ips : gmap string nat) : gmap string nat :=
    match value with
    | JStr s => if isIPAddress s then bump s ips else ips
    | JArr _ | JObj _ => extractIPs_ips value ips
    | _ => ips
    end in
  match obj with
  | JObj props =>
      (fix entries (l : list (string * Json)) (ips : gmap string nat) :=
         match l with
         | [] => ips
         | (_, value) :: l' => entries l' (visit value ips)
         end) props ips
  | JArr items =>
      (fix entries (l : list Json) (ips : gmap string nat) :=
         match l with
         | [] => ips
         | value :: l' => entries l' (visit value ips)
         end) items ips
  | _ => ips
  end.

Definition extractIPs (obj : Json) (stats : LogStats) : LogStats :=
  withIps stats (extractIPs_ips obj (ipAddresses stats)).

(** [extractIPsFromText]: every match of [ipv4Regex] that passes
    [isIPAddress] is counted. *)
Definition extractIPsFromText (text : string) (stats : LogStats) : LogStats :=
  withIps stats
    (fold_left (fun ips ip => if isIPAddress ip then bump ip ips else ips)
               (ipv4Regex text) (ipAddresses stats)).

(** [typeof v === "object"] for a truthy [v]. *)
Definition isObject (v : Json) : bool :=
  match v with
  | JArr _ | JObj _ => true
  | _ => false
  end.

Section Parsing.
(** [JSON.parse] of the runtime: it returns a value or throws. *)
Variable JSON_parse : string -> JsResult Json.

(** [parseLine]: [Returns None] is the [null] of a line that does not
    match. The inner [try] turns a [JSON.parse] that throws into a
    [null] payload; nothing else in the body can throw, so the outer
    [catch] is never entered. *)
Definition parseLine (line : string) : JsResult (option ParsedLog) :=
  match LOG_REGEX line with
  | None => Returns None
  | Some (ts, lvl, msg, jsonStr) =>
      let jsonPayload :=
        match jsonStr with
        | Some str =>
            match JSON_parse str with
            | Returns v => v
            | Throws _ => JNull
            end
        | None => JNull
        end in
      Returns (Some (mkParsedLog ts lvl msg jsonPayload))
  end.

End Parsing.

(** The initial [stats] of [processLogFile]:
    [KEYWORDS.forEach((keyword) => { stats.keywordMatches[keyword] = 0; })]
    on the empty object literal. *)
Definition initStats (keywords : list string) : LogStats :=
  mkLogStats 0 0
    (fold_left (fun o keyword => assign keyword 0 o) keywords ∅) ∅ 0%Z.

(** The successive mutations of [stats] for one parsed record, in source
    order. *)
Definition incTotal (stats : LogStats) : LogStats :=
  mkLogStats (S (totalEntries stats)) (errorCount stats)
             (keywordMatches stats) (ipAddresses stats) (processingTime stats).

Definition incError (parsed : ParsedLog) (stats : LogStats) : LogStats :=
  if String.eqb (Js.toLowerCase (level parsed)) "error"
  then mkLogStats (totalEntries stats) (S (errorCount stats))
                  (keywordMatches stats) (ipAddresses stats)
                  (processingTime stats)
  else stats.

Definition countKeyword (parsed : ParsedLog) (stats : LogStats)
  (keyword : string) : LogStats :=
  if Js.includes (Js.toLowerCase (message parsed)) keyword
  then mkLogStats (totalEntries stats) (errorCount stats)
                  (incr keyword (keywordMatches stats)) (ipAddresses stats)
                  (processingTime stats)
  else stats.

Definition countKeywords (keywords : list string) (parsed : ParsedLog)
  (stats : LogStats) : LogStats :=
  fold_left (countKeyword parsed) keywords stats.

Definition walkPayload (parsed : ParsedLog) (stats : LogStats) : LogStats :=
  if isObject (jsonPayload parsed) then extractIPs (jsonPayload parsed) stats
  else stats.

(** The body of [if (parsed) { ... }]. *)
Definition foldRecord (keywords : list string) (parsed : ParsedLog)
  (stats : LogStats) : LogStats :=
  extractIPsFromText (message parsed)
    (walkPayload parsed
       (countKeywords keywords parsed (incError parsed (incTotal stats)))).

Section Scan.
Variable JSON_parse : string -> JsResult Json.
Variable keywords : list string.

(** What one line does to the accumulator. [parseLine] cannot throw
    (see [parseLine_returns]); a throw would leave the loop, which the
    effectful scanner below models. *)
Definition foldLine (stats : LogStats) (line : string) : LogStats :=
  match parseLine JSON_parse line with
  | Returns (Some parsed) => foldRecord keywords parsed stats
  | _ => stats
  end.

(** The accumulator after the lines read so far. *)
Definition foldLines (lines : list string) : LogStats :=
  fold_left foldLine lines (initStats keywords).

(** Every value [stats] takes while one record is folded. *)
Definition recordTrace (parsed : ParsedLog) (stats : LogStats) : list LogStats :=
  let s1 := incTotal stats in
  let s2 := incError parsed s1 in
  let s3 := countKeywords keywords parsed s2 in
  let s4 := walkPayload parsed s3 in
  let s5 := extractIPsFromText (message parsed) s4 in
  [s1; s2; s3; s4; s5].

End Scan.

(** ** The worker's effects

    The job handler runs against collaborators whose behaviour the
    worker does not control; [Env] fixes one behaviour of each, indexed by
    the number of the call or of the suspension point. *)

Inductive Status : Type := waiting | processing | completed | failed.

(** What one [storage.download] gives, up to the file being on disk. *)
Inductive Attempt : Type :=
  | NoResponse
  | StorageError (message : string)
  | NoData
  | Unsupported (constructorName : string)
  | Buffer (content : string) (writeError : option string).

Record Env : Type := mkEnv {
  dbError : nat -> option string;   (* the n-th durable-store write *)
  attempt : nat -> Attempt;         (* the n-th storage download *)
  clock : nat -> Z;                 (* [Date.now()] at the n-th suspension *)
  heapHigh : nat -> bool;           (* heapUsed / heapTotal above 80%, likewise *)
  unlinkError : option string       (* [fs.unlinkSync] throws *)
}.

Inductive Event : Type :=
  | DbStatus (jobId : string) (status : Status) (progress : nat)
             (error : option string)
  | DbStats (jobId : string) (stats : LogStats) (status : Status)
            (progress : nat)
  | Published (jobId : string) (status : Status) (progress : option nat)
              (error : option string)
  | JobProgress (progress : nat)
  | Slept (ms : Z)
  | Wrote (path : string)
  | Unlinked (path : string)
  | ConsoleError (what : string).

(** The state the handler and the timer callback share: the scratch
    directory, the handler's captured variables [aborted] and [timeoutId]
    (the deadline of the pending timer), and the effects so far, latest
    first. *)
Record World : Type := mkWorld {
  ticks : nat;
  dbCalls : nat;
  downloads : nat;
  files : gmap string string;
  aborted : bool;
  timeoutId : option Z;
  trace : list Event
}.

Definition M (A : Type) : Type := World -> JsResult A * World.

Definition ret {A} (a : A) : M A := fun w => (Returns a, w).

Definition throw {A} (message : string) : M A := fun w => (Throws message, w).

Definition bind {A B} (m : M A) (k : A -> M B) : M B :=
  fun w =>
    match m w with
    | (Returns a, w') => k a w'
    | (Throws e, w') => (Throws e, w')
    end.

(** [try { m } catch (error) { h error }] *)
Definition tryCatch {A} (m : M A) (h : string -> M A) : M A :=
  fun w =>
    match m w with
    | (Returns a, w') => (Returns a, w')
    | (Throws e, w') => h e w'
    end.

Notation "'let*' x ':=' m 'in' k" := (bind m (fun x => k))
  (at level 10, x name, m at level 100, k at level 200).

Definition get : M World := fun w => (Returns w, w).

Definition modify (f : World -> World) : M unit := fun w => (Returns tt, f w).

Definition emit (e : Event) : M unit :=
  modify (fun w => mkWorld (ticks w) (dbCalls w) (downloads w) (files w)
                           (aborted w) (timeoutId w) (e :: trace w)).

Definition setFiles (fs : gmap string string) : M unit :=
  modify (fun w => mkWorld (ticks w) (dbCalls w) (downloads w) fs
                           (aborted w) (timeoutId w) (trace w)).

Definition setAborted (b : bool) : M unit :=
  modify (fun w => mkWorld (ticks w) (dbCalls w) (downloads w) (files w)
                           b (timeoutId w) (trace w)).

Definition setTimeoutId (t : option Z) : M unit :=
  modify (fun w => mkWorld (ticks w) (dbCalls w) (downloads w) (files w)
                           (aborted w) t (trace w)).

Definition nextDbCall : M nat :=
  fun w => (Returns (dbCalls w),
            mkWorld (ticks w) (S (dbCalls w)) (downloads w) (files w)
                    (aborted w) (timeoutId w) (trace w)).

Definition nextDownload : M nat :=
  fun w => (Returns (downloads w),
            mkWorld (ticks w) (dbCalls w) (S (downloads w)) (files w)
                    (aborted w) (timeoutId w) (trace w)).

Definition nextTick : M nat :=
  fun w => (Returns (S (ticks w)),
            mkWorld (S (ticks w)) (dbCalls w) (downloads w) (files w)
                    (aborted w) (timeoutId w) (trace w)).

(** The error the [try] body of a download iteration throws on an
    answer of the storage, in the order of its checks; [None] when it
    reaches the end and the file is written. *)
Definition attemptError (a : Attempt) : option string :=
  match a with
  | NoResponse => Some "Empty response from Supabase storage"
  | StorageError errorMsg => Some ("Supabase storage error: " +:+ errorMsg)
  | NoData => Some "No data received from storage"
  | Unsupported name =>
      Some ("Failed to process downloaded data: Unsupported data type: "
              +:+ name)
  | Buffer content writeError =>
      if Nat.eqb (String.length content) 0
      then Some "Downloaded file is empty (0 bytes)"
      else
        match writeError with
        | Some e => Some ("Failed to write file to disk: " +:+ e)
        | None => None
        end
  end.

Definition attemptContent (a : Attempt) : string :=
  match a with
  | Buffer content _ => content
  | _ => EmptyString
  end.

Definition timeoutMessage : string := "Processing timeout after 3 minutes".

Definition safetyTimeout : Z := 3 * 60 * 1000.

Section Worker.
Variable env : Env.
Variable JSON_parse : string -> JsResult Json.
Variable keywords : list string.

Definition now : M Z := let* w := get in ret (clock env (ticks w)).

(** The part of [updateJobStatus] after its request was sent: a failed
    write is logged and thrown again, twice over; a successful one is
    followed by the publication, whose own failure could only be logged. *)
Definition updateJobStatus_write (jobId : string) (status : Status)
  (progress : nat) (error : option string) : M unit :=
  let stored :=                     (* [...(error ? { error } : {})] *)
    match error with
    | Some EmptyString => None
    | e => e
    end in
  let* n := nextDbCall in
  match dbError env n with
  | Some dbErr =>
      let* _ := emit (ConsoleError "Error updating job status:") in
      let* _ := emit (ConsoleError "Exception updating job status:") in
      throw dbErr
  | None =>
      let* _ := emit (DbStatus jobId status progress stored) in
      emit (Published jobId status (Some progress) error)
  end.

(** The callback given to [setTimeout]. *)
Definition onSafetyTimeout (jobId : string) : M unit :=
  let* _ := setAborted true in
  tryCatch (updateJobStatus_write jobId failed 0 (Some timeoutMessage))
           (fun _ => emit (ConsoleError
                             "Failed to update job status after timeout:")).

(** A suspension point of the handler ([await]): the event loop runs,
    and the timer callback with it once the deadline has passed. A timer
    fires once. *)
Definition suspend (jobId : string) : M unit :=
  let* t := nextTick in
  let* w := get in
  match timeoutId w with
  | Some deadline =>
      if Z.leb deadline (clock env t)
      then let* _ := setTimeoutId None in onSafetyTimeout jobId
      else ret tt
  | None => ret tt
  end.

Definition updateJobStatus (jobId : string) (status : Status)
  (progress : nat) (error : option string) : M unit :=
  let* _ := suspend jobId in
  updateJobStatus_write jobId status progress error.

Definition updateJobStats (jobId : string) (stats : LogStats)
  (status : Status) (progress : nat) : M unit :=
  let* _ := suspend jobId in
  let* n := nextDbCall in
  match dbError env n with
  | Some dbErr =>
      let* _ := emit (ConsoleError "Error updating job stats:") in
      let* _ := emit (ConsoleError "Exception updating job stats:") in
      throw dbErr
  | None =>
      let* _ := emit (DbStats jobId stats status progress) in
      emit (Published jobId status (Some progress) None)
  end.

Definition sleep (jobId : string) (ms : Z) : M unit :=
  let* _ := emit (Slept ms) in suspend jobId.

(** ** [downloadFile] *)

Definition maxRetries : nat := 3.

Definition tempDir : string := "/tmp/log-processor".

Fixpoint basename_acc (s cur : string) : string :=
  match s with
  | EmptyString => Js.rev cur
  | String c s' =>
      if Ascii.eqb c "/" then basename_acc s' EmptyString
      else basename_acc s' (String c cur)
  end.

Definition basename (p : string) : string := basename_acc p EmptyString.

Definition tempFilePathOf (jobId : string) (t : Z) (filePath : string)
  : string :=
  tempDir +:+ "/job-" +:+ jobId +:+ "-" +:+ pretty t +:+ "-"
          +:+ basename filePath.

(** The body of the [try] of one iteration: it throws [attemptError] of
    what the storage answered, or else writes the scratch file and
    returns its path.  The calls to [listBuckets] and [getBucket] before
    the download only log what they get, errors included, and are left
    out. *)
Definition downloadAttempt (filePath jobId : string) : M string :=
  let* _ := suspend jobId in
  let* n := nextDownload in
  match attemptError (attempt env n) with
  | Some errorMsg => throw errorMsg
  | None =>
      let* t := now in
      let tempFilePath := tempFilePathOf jobId t filePath in
      let* w := get in
      let* _ :=
        setFiles (<[tempFilePath := attemptContent (attempt env n)]> (files w)) in
      let* _ := emit (Wrote tempFilePath) in
      ret tempFilePath
  end.

(** The [while (retries < maxRetries)] loop, by recursion on the number
    of iterations its condition still allows, [maxRetries - retries]. *)
Fixpoint downloadLoop (remaining retries : nat) (filePath jobId : string)
  : M string :=
  match remaining with
  | O => throw "Failed to download file after maximum retries"
  | S remaining' =>
      tryCatch (downloadAttempt filePath jobId)
        (fun errorMsg =>
           let* _ := emit (ConsoleError ("Download error for job " +:+ jobId)) in
           let retries := S retries in
           if Nat.leb maxRetries retries
           then throw ("Failed to download file after " +:+ pretty maxRetries
                         +:+ " attempts: " +:+ errorMsg)
           else
             let backoffTime := (1000 * 2 ^ Z.of_nat retries)%Z in
             let* _ := sleep jobId backoffTime in
             downloadLoop remaining' retries filePath jobId)
  end.

Definition downloadFile (filePath jobId : string) : M string :=
  if String.eqb (Js.trim filePath) EmptyString
  then throw ("Invalid file path: " +:+ filePath)
  else downloadLoop (maxRetries - 0) 0 filePath jobId.

(** ** [processLogFile] *)

(** The lines [readline] yields for a file: LF, CR LF and a lone CR all
    end a line, and a last line needs no terminator. *)
Fixpoint readLines_acc (content cur : string) : list string :=
  match content with
  | EmptyString =>
      match cur with
      | EmptyString => []
      | _ => [Js.rev cur]
      end
  | String "010" rest => Js.rev cur :: readLines_acc rest EmptyString
  | String "013" (String "010" rest) =>
      Js.rev cur :: readLines_acc rest EmptyString
  | String "013" rest => Js.rev cur :: readLines_acc rest EmptyString
  | String c rest => readLines_acc rest (String c cur)
  end.

Definition readLines (content : string) : list string :=
  readLines_acc content EmptyString.

(** The local variables of the scanning loop. *)
Record ScanVars : Type := mkScanVars {
  stats : LogStats;
  lineCount : nat;
  lastProgressUpdate : Z;
  reportedProgress : nat;
  lastMemoryCheck : Z;
  batchSize : nat
}.

Definition BATCH_SIZE : nat := 1000.

Definition liftResult {A} (r : JsResult A) : M A := fun w => (r, w).

(** [await job.updateProgress(n)] of the queue library. *)
Definition jobUpdateProgress (jobId : string) (n : nat) : M unit :=
  let* _ := suspend jobId in emit (JobProgress n).

(** The memory check at the head of the loop body; it returns the new
    [lastMemoryCheck]. *)
Definition memoryCheck (jobId : string) (t : Z) (v : ScanVars) : M Z :=
  if Z.ltb 5000 (t - lastMemoryCheck v) then
    let* w := get in
    let* _ :=
      if heapHigh env (ticks w) then sleep jobId 500 else ret tt in
    ret t
  else ret (lastMemoryCheck v).

(** The progress checkpoint at the end of the loop body. The percentage
    is the integer part of [lineCount / estimatedTotalLines * 80], here
    computed on integers. *)
Definition checkpoint (jobId : string) (estimatedTotalLines : nat) (t : Z)
  (st : LogStats) (lineCount batchSize : nat) (lastMemoryCheck : Z)
  (v : ScanVars) : M ScanVars :=
  let late := Z.ltb 5000 (t - lastProgressUpdate v) in
  if Nat.leb BATCH_SIZE batchSize || late then
    let currentProgress := lineCount * 80 / estimatedTotalLines + 20 in
    if Nat.leb (reportedProgress v + 5) currentProgress || late then
      let scaledProgress := Nat.min 99 (Nat.max 20 currentProgress) in
      let* _ := jobUpdateProgress jobId scaledProgress in
      let* _ := updateJobStatus jobId processing scaledProgress None in
      let* _ := emit (Published jobId processing (Some scaledProgress) None) in
      ret (mkScanVars st lineCount t currentProgress lastMemoryCheck 0)
    else
      ret (mkScanVars st lineCount (lastProgressUpdate v) (reportedProgress v)
                      lastMemoryCheck 0)
  else
    ret (mkScanVars st lineCount (lastProgressUpdate v) (reportedProgress v)
                    lastMemoryCheck batchSize).

(** [for await (const line of rl) { ... }]. [aborted] is the parameter of
    [processLogFile]: a boolean passed by value, so the loop tests what
    the caller's variable held when the call was made. *)
Fixpoint scanLoop (jobId : string) (aborted : bool)
  (estimatedTotalLines : nat) (lines : list string) (v : ScanVars)
  : M ScanVars :=
  match lines with
  | [] => ret v
  | line :: rest =>
      let* _ := suspend jobId in
      if aborted then ret v
      else
        let lineCount := S (lineCount v) in
        let batchSize := S (batchSize v) in
        let* t := now in
        let* lastMemoryCheck := memoryCheck jobId t v in
        let* parsed := liftResult (parseLine JSON_parse line) in
        let st :=
          match parsed with
          | Some parsed => foldRecord keywords parsed (stats v)
          | None => stats v
          end in
        let* v' := checkpoint jobId estimatedTotalLines t st lineCount
                              batchSize lastMemoryCheck v in
        scanLoop jobId aborted estimatedTotalLines rest v'
  end.

Definition withProcessingTime (st : LogStats) (ms : Z) : LogStats :=
  mkLogStats (totalEntries st) (errorCount st) (keywordMatches st)
             (ipAddresses st) ms.

Definition processLogFile (filePath : string) (jobId : string)
  (aborted : bool) : M LogStats :=
  let st := initStats keywords in
  let* startTime := now in
  let* w := get in
  match files w !! filePath with
  | None => throw ("File not found: " +:+ filePath)
  | Some content =>
      let estimatedTotalLines := Nat.max 100 (String.length content / 200) in
      let* v :=
        tryCatch
          (scanLoop jobId aborted estimatedTotalLines (readLines content)
                    (mkScanVars st 0 startTime 20 startTime 0))
          (fun error =>
             let* _ := emit (ConsoleError "Error processing file for job") in
             throw error) in
      let* endTime := now in
      ret (withProcessingTime (stats v) (endTime - startTime))
  end.

(** ** The job handler *)

Record JobData : Type := mkJobData {
  jobId : string;
  filePath : string;
  fileName : string;
  fileSize : nat;
  userId : string;
  submitted : string
}.

Definition clearTimer : M unit :=
  let* w := get in
  match timeoutId w with
  | Some _ => setTimeoutId None
  | None => ret tt
  end.

Definition cleanupJob (id : string) (status : Status) (progress : nat)
  (errorMsg : option string) : M unit :=
  tryCatch
    (let* _ := clearTimer in
     match status with
     | failed => updateJobStatus id failed progress errorMsg
     | _ => ret tt
     end)
    (fun _ => emit (ConsoleError ("Cleanup error for job " +:+ id))).

Definition sampleFileContent (id path : string) (count : nat)
  : M (list string) :=
  let* _ := suspend id in
  let* w := get in
  match files w !! path with
  | Some content => ret (firstn count (readLines content))
  | None => throw "ENOENT: no such file or directory"
  end.

(** [if (fs.existsSync(p)) fs.unlinkSync(p)] inside its [try]. *)
Definition removeTemp (path : string) : M unit :=
  tryCatch
    (let* w := get in
     match files w !! path with
     | Some _ =>
         match unlinkError env with
         | Some e => throw e
         | None =>
             let* _ := setFiles (delete path (files w)) in
             emit (Unlinked path)
         end
     | None => ret tt
     end)
    (fun _ => emit (ConsoleError "Error cleaning up temp file")).

(** The [try] block of the handler once the timer is armed. *)
Definition tryBlock (job : JobData) : M LogStats :=
  let id := jobId job in
  let* _ := updateJobStatus id processing 1 None in
  let* tempFilePath := downloadFile (filePath job) id in
  let* w := get in
  let* size :=
    match files w !! tempFilePath with
    | Some content => ret (String.length content)
    | None => throw "ENOENT: no such file or directory"
    end in
  let* _ :=
    if Nat.eqb size 0 then throw "Downloaded file is empty" else ret tt in
  let* _ := sampleFileContent id tempFilePath 3 in
  let* _ := jobUpdateProgress id 10 in
  let* _ := updateJobStatus id processing 10 None in
  let* w := get in
  let* st := processLogFile tempFilePath id (aborted w) in
  let* _ := updateJobStats id st completed 100 in
  let* _ := removeTemp tempFilePath in
  let* _ := clearTimer in
  ret st.

(** The [catch] block of the handler. *)
Definition catchBlock (job : JobData) (error : string) : M LogStats :=
  let id := jobId job in
  let* _ := emit (ConsoleError ("Error processing job " +:+ id)) in
  let* _ := cleanupJob id failed 0 (Some error) in
  throw error.

(** The processor function given to the [Worker]: its variables
    [timeoutId] and [aborted], then the [try] that arms the timer and
    does the work, and the [catch]. *)
Definition handler (job : JobData) : M LogStats :=
  let* _ := setTimeoutId None in
  let* _ := setAborted false in
  tryCatch
    (let* t := now in
     let* _ := setTimeoutId (Some (t + safetyTimeout)%Z) in
     tryBlock job)
    (catchBlock job).

(** The worker around the handler: its [completed] and [failed]
    listeners publish the outcome. *)
Definition runJob (job : JobData) : M LogStats :=
  tryCatch
    (let* st := handler job in
     let* _ := emit (Published (jobId job) completed (Some 100) None) in
     ret st)
    (fun error =>
       let* _ := emit (ConsoleError ("Job " +:+ jobId job +:+ " failed")) in
       let* _ := emit (Published (jobId job) failed None (Some error)) in
       throw error).

End Worker.

Definition world0 : World := mkWorld 0 0 0 ∅ false None [].

(** The world in which the [try] block of the handler starts: the flag
    down and the timer armed. *)
Definition armed (env : Env) (w : World) : World :=
  mkWorld (ticks w) (dbCalls w) (downloads w) (files w) false
          (Some (clock env (ticks w) + safetyTimeout)%Z) (trace w).

(** The listeners of the worker, after a job that threw. *)
Definition afterFailure (job : JobData) (error : string) (w : World) : World :=
  mkWorld (ticks w) (dbCalls w) (downloads w) (files w) (aborted w)
          (timeoutId w)
          (Published (jobId job) failed None (Some error)
             :: ConsoleError ("Job " +:+ jobId job +:+ " failed") :: trace w).

(** ** Observations on a run *)

(** The durable status writes among the effects [t] (latest first),
    oldest first. *)
Definition writesIn (t : list Event) : list (Status * nat * option string) :=
  omap (fun e =>
          match e with
          | DbStatus _ st p err => Some (st, p, err)
          | DbStats _ _ st p => Some (st, p, None)
          | _ => None
          end) (reverse t).

Definition statusWrites (w : World) : list (Status * nat * option string) :=
  writesIn (trace w).

(** The waits among the effects, oldest first. *)
Definition sleepsIn (t : list Event) : list Z :=
  omap (fun e => match e with Slept ms => Some ms | _ => None end)
       (reverse t).

Definition slept (w : World) : list Z := sleepsIn (trace w).

(** How many of the first [n] writes the store refuses. *)
Fixpoint failedWrites (env : Env) (n : nat) : nat :=
  match n with
  | O => 0
  | S m =>
      failedWrites env m + match dbError env m with Some _ => 1 | None => 0 end
  end.

(** The log of the [catch] inside the timer callback. *)
Definition isTimerCatch (e : Event) : bool :=
  match e with
  | ConsoleError what =>
      String.eqb what "Failed to update job status after timeout:"
  | _ => false
  end.

(** How many failed writes the timer callback has caught, by its log. *)
Fixpoint timerCaught (t : list Event) : nat :=
  match t with
  | [] => 0
  | e :: t' => (if isTimerCatch e then 1 else 0) + timerCaught t'
  end.

(** The writes refused so far that the timer callback did not catch. *)
Definition uncaught (env : Env) (w : World) : Z :=
  Z.of_nat (failedWrites env (dbCalls w)) - Z.of_nat (timerCaught (trace w)).

(** A computation that leaves no refused write uncaught, however it
    ends. *)
Definition neutral {A} (env : Env) (m : M A) : Prop :=
  forall w, uncaught env (m w).2 = uncaught env w.

(** A computation that returns only when no write of its own was
    refused, and otherwise either throws for another reason or throws the
    error of the write it made last, that write being the one refused
    write more. *)
Definition honest {A} (env : Env) (m : M A) : Prop :=
  forall w,
    match m w with
    | (Returns _, w') => uncaught env w' = uncaught env w
    | (Throws e, w') =>
        uncaught env w' = uncaught env w \/
        (uncaught env w' = uncaught env w + 1)%Z /\
        exists n, dbCalls w' = S n /\ dbError env n = Some e
    end.

(** What [updateJobStatus] stores of an error message:
    [...(error ? { error } : {})]. *)
Definition storedError (e : string) : option string :=
  match e with
  | EmptyString => None
  | _ => Some e
  end.

(** ** Invariants of the accumulator *)

(** The keys [initStats] creates: the monitored keywords, without
    [__proto__]. *)
Definition ownKeywords (keywords : list string) : gset string :=
  list_to_set keywords ∖ {["__proto__"]}.

(** The invariant of [LogStats]: no more errors than entries, and the
    keys of [keywordMatches] are the keys it was created with. *)
Definition statsInv (keywords : list string) (st : LogStats) : Prop :=
  errorCount st <= totalEntries st /\
  dom (keywordMatches st) = ownKeywords keywords.

(** Every key of [ipAddresses] passes [isIPAddress]. *)
Definition ipKeysInv (st : LogStats) : Prop :=
  map_Forall (fun ip _ => isIPAddress ip = true) (ipAddresses st).

(** ** Scenarios *)

(** A [JSON.parse] for lines that carry no payload: it rejects any text. *)
Definition rejectJson (_ : string) : JsResult Json :=
  Throws "Unexpected token in JSON".

(** The line and the monitored keywords of the keyword-counting scenario. *)
Definition keywordLine : string := "[t] ERROR something timeout happened".

Definition keywordScenario : list string := KEYWORDS (Some "error,timeout").

(** The monitored keywords of a deployment that also watches for
    prototype pollution, and a line that reports an attempt. *)
Definition protoScenario : list string := KEYWORDS (Some "error,__proto__").

Definition protoMessage : string := "rejected key __proto__ in request body".

Definition protoLine : string := "[t] WARN " +:+ protoMessage.

(** A segment as the specification means it: a non-empty run of decimal
    digits whose value is at most 255. *)
Definition decimalSegment (s : string) : bool :=
  negb (String.eqb s EmptyString) && Js.forallbS Js.isDigit s
  && Z.leb (Js.digitsVal s 0) 255.

Definition dottedQuad (a b c d : string) : string :=
  a +:+ "." +:+ b +:+ "." +:+ c +:+ "." +:+ d.

(** The line grammar [[T] LEVEL message {json}], piece by piece: the
    timestamp, the white space after the bracket, the level, the white
    space after it, the message, and for a line with a payload the white
    space before it and the text between its braces. *)
Record LineParts : Type := mkLineParts {
  lp_timestamp : string;
  lp_ws1 : string;
  lp_level : string;
  lp_ws2 : string;
  lp_message : string;
  lp_payload : option (string * string)
}.

Definition payloadText (body : string) : string := "{" +:+ body +:+ "}".

Definition render (lp : LineParts) : string :=
  "[" +:+ lp_timestamp lp +:+ "]" +:+ lp_ws1 lp +:+ lp_level lp +:+ lp_ws2 lp
      +:+ lp_message lp
      +:+ match lp_payload lp with
          | Some (ws3, body) => ws3 +:+ payloadText body
          | None => EmptyString
          end.

Definition nonEmpty (s : string) : bool := negb (String.eqb s EmptyString).

Definition noChar (c : ascii) (s : string) : bool :=
  Js.forallbS (fun x => negb (Ascii.eqb x c)) s.

Definition headNot (p : ascii -> bool) (s : string) : bool :=
  match s with
  | String c _ => negb (p c)
  | EmptyString => true
  end.

Definition lastNot (p : ascii -> bool) (s : string) : bool :=
  match Re.lastChar s with
  | Some c => negb (p c)
  | None => true
  end.

(** No character of the class [p] is directly followed by one of the
    class [q]. *)
Fixpoint noPair (p q : ascii -> bool) (s : string) : bool :=
  match s with
  | EmptyString => true
  | String c s' => (negb (p c) || headNot q s') && noPair p q s'
  end.

(** The grammar as the specification words it,
    [[<timestamp>] <LEVEL> <message>[ <json-payload>]]: the line is its
    pieces put together, the level is a word, white space separates the
    pieces, and the payload is a braced text. *)
Definition grammarPieces (lp : LineParts) : bool :=
  Js.forallbS Js.isDot (lp_timestamp lp)
  && nonEmpty (lp_ws1 lp) && Js.forallbS Js.isSpace (lp_ws1 lp)
  && nonEmpty (lp_level lp) && Js.forallbS Js.isWord (lp_level lp)
  && nonEmpty (lp_ws2 lp) && Js.forallbS Js.isSpace (lp_ws2 lp)
  && Js.forallbS Js.isDot (lp_message lp)
  && match lp_payload lp with
     | Some (ws3, body) =>
         nonEmpty ws3 && Js.forallbS Js.isSpace ws3
         && Js.forallbS Js.isDot body
     | None => true
     end.

(** The pieces [LOG_REGEX] finds again as they are.  Besides being
    pieces of the grammar: the timestamp has no closing bracket that white
    space follows (the pattern ends the timestamp at the first one that a
    level can follow); the message does not start with white space (which
    belongs to the separator), and has no opening brace that follows white
    space (the pattern starts the payload at the first one, when the line
    ends with a closing brace); before a payload the message is not empty
    and does not end with white space either.  No piece but the separators
    holds a line terminator, as no line does. *)
Definition wellFormed (lp : LineParts) : bool :=
  Js.forallbS Js.isDot (lp_timestamp lp)
  && noPair (Ascii.eqb "]") Js.isSpace (lp_timestamp lp)
  && nonEmpty (lp_ws1 lp) && Js.forallbS Js.isSpace (lp_ws1 lp)
  && nonEmpty (lp_level lp) && Js.forallbS Js.isWord (lp_level lp)
  && nonEmpty (lp_ws2 lp) && Js.forallbS Js.isSpace (lp_ws2 lp)
  && Js.forallbS Js.isDot (lp_message lp)
  && noPair Js.isSpace (Ascii.eqb "{") (lp_message lp)
  && headNot Js.isSpace (lp_message lp)
  && match lp_payload lp with
     | Some (ws3, body) =>
         nonEmpty ws3 && Js.forallbS Js.isSpace ws3
         && Js.forallbS Js.isDot body
         && nonEmpty (lp_message lp) && lastNot Js.isSpace (lp_message lp)
     | None => true
     end.

(** The payload [parseLine] reports for a line of these pieces. *)
Definition payloadOf (JSON_parse : string -> JsResult Json) (lp : LineParts)
  : Json :=
  match lp_payload lp with
  | Some (_, body) =>
      match JSON_parse (payloadText body) with
      | Returns v => v
      | Throws _ => JNull
      end
  | None => JNull
  end.

(** What [LOG_REGEX] looks for, said without the pattern: the line
    holds, at any place, a bracketed text, white space, a word and white
    space, and from there to its end either any text, or a text and then
    white space and a braced text.  Only the separators may hold a line
    terminator. *)
Definition holdsShape (line : string) : Prop :=
  exists pre ts ws1 lvl ws2 msg tail,
    line = pre +:+ "[" +:+ ts +:+ "]" +:+ ws1 +:+ lvl +:+ ws2 +:+ msg +:+ tail
    /\ Js.forallbS Js.isDot ts = true
    /\ nonEmpty ws1 = true /\ Js.forallbS Js.isSpace ws1 = true
    /\ nonEmpty lvl = true /\ Js.forallbS Js.isWord lvl = true
    /\ nonEmpty ws2 = true /\ Js.forallbS Js.isSpace ws2 = true
    /\ Js.forallbS Js.isDot msg = true
    /\ (tail = EmptyString \/
        exists ws3 body,
          tail = ws3 +:+ payloadText body /\ nonEmpty ws3 = true
          /\ Js.forallbS Js.isSpace ws3 = true
          /\ Js.forallbS Js.isDot body = true).

(** A line with a payload, and a [JSON.parse] that knows its text. *)
Definition quoted (s : string) : string :=
  String "034" s +:+ String "034" EmptyString.

Definition sampleParts : LineParts :=
  mkLineParts "2024-05-01T10:00:00Z" " " "INFO" " " "login from 10.0.0.1"
              (Some (" ", quoted "ip" +:+ ":" +:+ quoted "10.0.0.1")).

Definition sampleParse (text : string) : JsResult Json :=
  if String.eqb text (payloadText (quoted "ip" +:+ ":" +:+ quoted "10.0.0.1"))
  then Returns (JObj [("ip", JStr "10.0.0.1")])
  else Throws "Unexpected token in JSON".

(** A line of the grammar whose message holds a brace, and a [JSON.parse]
    that knows the text of its payload. *)
Definition braceParts : LineParts :=
  mkLineParts "t" " " "INFO" " " "user {id} logged"
              (Some (" ", quoted "a" +:+ ":1")).

Definition braceParse (text : string) : JsResult Json :=
  if String.eqb text (payloadText (quoted "a" +:+ ":1"))
  then Returns (JObj [("a", JNum "1")])
  else Throws "Unexpected token in JSON".

(** A line that does not start with the bracket of the grammar. *)
Definition junkLine : string := "junk [t] INFO hi".

(** The waits after the failed attempts number [first], [first + 1], ...:
    [1000 * 2^k] milliseconds after the [k]-th. *)
Definition backoffs (first count : nat) : list Z :=
  map (fun k => (1000 * 2 ^ Z.of_nat k)%Z) (seq first count).

Definition exhaustedMessage (cause : string) : string :=
  "Failed to download file after 3 attempts: " +:+ cause.


(** A storage that answers the first download with zero bytes and every
    later one with a log file; the store, the clock and the disk behave. *)
Definition emptyThenFullEnv : Env :=
  mkEnv (fun _ => None)
        (fun n => match n with
                  | O => Buffer EmptyString None
                  | S _ => Buffer keywordLine None
                  end)
        (fun n => Z.of_nat n) (fun _ => false) None.


Definition job1 : JobData :=
  mkJobData "j1" "uploads/app.log" "app.log" 37 "u1" "2024-05-01T10:00:00Z".

(** A store that fails on one write only, the one numbered [k]; the
    clock counts the suspension points. *)
Definition writeFailsEnv (k : nat) : Env :=
  mkEnv (fun n => if Nat.eqb n k then Some "connection reset" else None)
        (fun _ => Buffer keywordLine None)
        (fun n => Z.of_nat n) (fun _ => false) None.

(** The same with a clock that advances six seconds per suspension point,
    so that a progress checkpoint is due at the first line. *)
Definition checkpointWriteFailsEnv : Env :=
  mkEnv (fun n => if Nat.eqb n 2 then Some "connection reset" else None)
        (fun _ => Buffer keywordLine None)
        (fun n => (6000 * Z.of_nat n)%Z) (fun _ => false) None.

(** A store that fails from its second write on. *)
Definition storeGoesDownEnv : Env :=
  mkEnv (fun n => if Nat.leb 1 n then Some "connection reset" else None)
        (fun _ => Buffer keywordLine None)
        (fun n => Z.of_nat n) (fun _ => false) None.

(** A store that fails on its second write only (the write of the 10%
    progress); everything else behaves. *)
Definition progressWriteFailsEnv : Env :=
  mkEnv (fun n => if Nat.eqb n 1 then Some "connection reset" else None)
        (fun _ => Buffer keywordLine None)
        (fun n => Z.of_nat n) (fun _ => false) None.

(** A log file of three lines. *)
Definition threeLines : string :=
  "[t1] INFO started
[t2] ERROR request timeout
[t3] INFO stopped
".

(** A run in which everything behaves but time: the first six
    suspension points (status write, download, sample, two progress
    writes, first line) pass at once, and three minutes and twenty
    seconds have gone by when the second line is awaited. *)
Definition slowScanEnv : Env :=
  mkEnv (fun _ => None) (fun _ => Buffer threeLines None)
        (fun n => if Nat.ltb n 7 then 0%Z else 200000%Z)
        (fun _ => false) None.

(** The run of [slowScanEnv] with a store that refuses its third write,
    which is the one the timer callback makes. *)
Definition timerWriteFailsEnv : Env :=
  mkEnv (fun n => if Nat.eqb n 2 then Some "connection reset" else None)
        (fun _ => Buffer threeLines None)
        (fun n => if Nat.ltb n 7 then 0%Z else 200000%Z)
        (fun _ => false) None.

(** The disk refuses to delete. *)
Definition unlinkFailsEnv : Env :=
  mkEnv (fun _ => None) (fun _ => Buffer keywordLine None)
        (fun n => Z.of_nat n) (fun _ => false) (Some "EPERM").

(** The scratch file of [job1] when it is written at the second
    suspension point of a run whose clock counts the suspension points. *)
Definition job1Scratch : string := "/tmp/log-processor/job-j1-2-app.log".

(** * Properties *)

Ltac fold_obs :=
  repeat match goal with
         | |- context [ sleepsIn (trace ?w) ] =>
             change (sleepsIn (trace w)) with (slept w)
         | |- context [ writesIn (trace ?w) ] =>
             change (writesIn (trace w)) with (statusWrites w)
         end.

Ltac bind_cases H :=
  unfold bind in H at 1;
  match type of H with
  | context [ match ?m ?w with _ => _ end ] =>
      destruct (m w) as [ [ ? | ? ] ? ] eqn:?; try discriminate H
  end.

(** Decide the comparisons of log lines that are literals. *)
Ltac eval_labels :=
  repeat match goal with
         | |- context [ String.eqb ?a ?b ] =>
             let v := eval vm_compute in (String.eqb a b) in
             change (String.eqb a b) with v
         end;
  cbv beta iota.

Ltac split_andb H :=
  repeat match type of H with
         | (_ && _) = true =>
             let H1 := fresh "W" in
             apply andb_true_iff in H; destruct H as [H H1]
         end.

(** ** [isIPAddress] *)

Lemma append_cons x (a b : string) : String x a +:+ b = String x (a +:+ b).
Proof. reflexivity. Qed.

Lemma append_nil_l (b : string) : EmptyString +:+ b = b.
Proof. reflexivity. Qed.

Lemma append_assoc (a b c : string) : (a +:+ b) +:+ c = a +:+ (b +:+ c).
Proof.
  induction a as [ | x a IH ]; [ reflexivity | ].
  rewrite !append_cons, IH. reflexivity.
Qed.

Lemma append_nil_r (a : string) : a +:+ EmptyString = a.
Proof.
  induction a as [ | x a IH ]; [ reflexivity | ].
  rewrite append_cons, IH. reflexivity.
Qed.

Lemma rev_acc_app s acc : Js.rev_acc s acc = Js.rev_acc s EmptyString +:+ acc.
Proof.
  revert acc. induction s as [ | c s IH ]; intros acc; simpl.
  - reflexivity.
  - rewrite (IH (String c acc)), (IH (String c EmptyString)).
    rewrite append_assoc. reflexivity.
Qed.

Lemma rev_acc_snoc s c acc :
  Js.rev_acc (s +:+ String c EmptyString) acc = String c (Js.rev_acc s acc).
Proof.
  revert acc. induction s as [ | d s IH ]; intros acc.
  - reflexivity.
  - rewrite append_cons. simpl. apply IH.
Qed.

Lemma rev_snoc s c : Js.rev (s +:+ String c EmptyString) = String c (Js.rev s).
Proof. apply rev_acc_snoc. Qed.

Lemma rev_involutive s : Js.rev (Js.rev s) = s.
Proof.
  induction s as [ | c s IH ].
  - reflexivity.
  - unfold Js.rev at 2. simpl. rewrite rev_acc_app.
    change (Js.rev_acc s EmptyString) with (Js.rev s).
    rewrite rev_snoc, IH. reflexivity.
Qed.

Lemma digit_not_dot c : Js.isDigit c = true -> Ascii.eqb c "." = false.
Proof.
  destruct c as [ [] [] [] [] [] [] [] [] ]; intros H;
    try discriminate H; reflexivity.
Qed.

Lemma split_acc_digits sep a rest cur :
  Js.forallbS (fun c => negb (Ascii.eqb c sep)) a = true ->
  Js.split_acc sep (a +:+ rest) cur = Js.split_acc sep rest (Js.rev_acc a cur).
Proof.
  revert cur. induction a as [ | c a IH ]; intros cur H; simpl in *.
  - reflexivity.
  - apply andb_true_iff in H. destruct H as [Hc Ha].
    apply negb_true_iff in Hc. rewrite Hc. apply IH, Ha.
Qed.

Lemma forallbS_impl (p q : ascii -> bool) s :
  (forall c, p c = true -> q c = true) ->
  Js.forallbS p s = true -> Js.forallbS q s = true.
Proof.
  intros Hpq. induction s as [ | c s IH ]; simpl; [ trivial | ].
  intros H. apply andb_true_iff in H. destruct H as [Hc Hs].
  rewrite (Hpq _ Hc), (IH Hs). reflexivity.
Qed.

Lemma split_dottedQuad a b c d :
  Js.forallbS Js.isDigit a = true -> Js.forallbS Js.isDigit b = true ->
  Js.forallbS Js.isDigit c = true -> Js.forallbS Js.isDigit d = true ->
  Js.split "." (dottedQuad a b c d) = [a; b; c; d].
Proof.
  intros Ha Hb Hc Hd.
  assert (Hnd : forall s, Js.forallbS Js.isDigit s = true ->
                   Js.forallbS (fun c => negb (Ascii.eqb c ".")) s = true).
  { intros s. apply forallbS_impl. intros x Hx.
    rewrite (digit_not_dot _ Hx). reflexivity. }
  assert (Hstep : forall s rest,
             Js.forallbS Js.isDigit s = true ->
             Js.split_acc "." (s +:+ String "." rest) EmptyString
             = s :: Js.split_acc "." rest EmptyString).
  { intros s rest Hs. rewrite split_acc_digits by (apply Hnd, Hs).
    simpl. change (Js.rev_acc s EmptyString) with (Js.rev s).
    rewrite rev_involutive. reflexivity. }
  unfold Js.split, dottedQuad. rewrite !append_cons, !append_nil_l.
  rewrite (Hstep a) by exact Ha.
  rewrite (Hstep b) by exact Hb.
  rewrite (Hstep c) by exact Hc.
  rewrite <- (append_nil_r d) at 1.
  rewrite split_acc_digits by (apply Hnd, Hd). simpl.
  change (Js.rev_acc d EmptyString) with (Js.rev d).
  rewrite rev_involutive. reflexivity.
Qed.

Lemma takeWhile_all p s : Js.forallbS p s = true -> Js.takeWhile p s = s.
Proof.
  induction s as [ | c s IH ]; simpl; [ trivial | ].
  intros H. apply andb_true_iff in H. destruct H as [Hc Hs].
  rewrite Hc, (IH Hs). reflexivity.
Qed.

Lemma digitsVal_nonneg s acc : (0 <= acc -> 0 <= Js.digitsVal s acc)%Z.
Proof.
  revert acc. induction s as [ | c s IH ]; intros acc H; simpl.
  - exact H.
  - apply IH. unfold Js.digitVal. lia.
Qed.

Lemma parseInt_digits s :
  s <> EmptyString -> Js.forallbS Js.isDigit s = true ->
  Js.parseInt s = Some (Js.digitsVal s 0).
Proof.
  intros Hne Hs. destruct s as [ | c s ]; [ congruence | ].
  pose proof Hs as Hs'. simpl in Hs'. apply andb_true_iff in Hs'.
  destruct Hs' as [Hc Hrest].
  assert (Hsp : Js.isSpace c = false)
    by (destruct c as [ [] [] [] [] [] [] [] [] ];
        try discriminate Hc; reflexivity).
  unfold Js.parseInt. cbn [Js.dropWhile]. rewrite Hsp.
  assert (Hsign :
            match String c s with
            | String "-" r => ((-1)%Z, r)
            | String "+" r => (1%Z, r)
            | _ => (1%Z, String c s)
            end = (1%Z, String c s))
    by (destruct c as [ [] [] [] [] [] [] [] [] ];
        try discriminate Hc; reflexivity).
  rewrite Hsign. rewrite takeWhile_all by exact Hs.
  f_equal. lia.
Qed.

Lemma isIPPart_decimalSegment s : decimalSegment s = true -> isIPPart s = true.
Proof.
  unfold decimalSegment, isIPPart. intros H.
  apply andb_true_iff in H. destruct H as [H Hle].
  apply andb_true_iff in H. destruct H as [Hne Hd].
  rewrite parseInt_digits.
  - rewrite Hle, andb_true_r. apply Z.leb_le, digitsVal_nonneg. lia.
  - intros ->. discriminate Hne.
  - exact Hd.
Qed.

(** The part of C6 the code keeps: four decimal segments of value at most
    255, joined by dots, are accepted. *)
Lemma isIPAddress_valid_quad a b c d :
  decimalSegment a = true -> decimalSegment b = true ->
  decimalSegment c = true -> decimalSegment d = true ->
  isIPAddress (dottedQuad a b c d) = true.
Proof.
  intros Ha Hb Hc Hd. unfold isIPAddress.
  assert (Hdig : forall s, decimalSegment s = true ->
                   Js.forallbS Js.isDigit s = true).
  { intros s H. unfold decimalSegment in H.
    apply andb_true_iff in H. destruct H as [H _].
    apply andb_true_iff in H. exact (proj2 H). }
  rewrite split_dottedQuad by (apply Hdig; assumption).
  simpl. rewrite !isIPPart_decimalSegment by assumption. reflexivity.
Qed.

(** What [isIPAddress] accepts, in full. *)
Lemma isIPAddress_spec str :
  isIPAddress str = true <->
  exists a b c d,
    Js.split "." str = [a; b; c; d] /\
    Forall (fun part =>
              exists num, Js.parseInt part = Some num /\ (0 <= num <= 255)%Z)
           [a; b; c; d].
Proof.
  unfold isIPAddress.
  assert (Hpart : forall part,
             isIPPart part = true <->
             exists num, Js.parseInt part = Some num /\ (0 <= num <= 255)%Z).
  { intros part. unfold isIPPart. destruct (Js.parseInt part) as [ num | ].
    - rewrite andb_true_iff, !Z.leb_le. split.
      + intros H. exists num. split; [ reflexivity | lia ].
      + intros (n & [= <-] & H). lia.
    - split; [ discriminate | intros (n & H & _); discriminate H ]. }
  destruct (Js.split "." str) as [ | a [ | b [ | c [ | d [ | e l ] ] ] ] ];
    simpl; try (split; [ discriminate | intros (? & ? & ? & ? & [=] & _) ]).
  rewrite !andb_true_iff, !Hpart. split.
  - intros (Ha & Hb & Hc & Hd & _). exists a, b, c, d.
    split; [ reflexivity | ]. repeat constructor; assumption.
  - intros (a' & b' & c' & d' & [= <- <- <- <-] & HF).
    inversion HF as [ | ? ? Ha HF1 ]; subst.
    inversion HF1 as [ | ? ? Hb HF2 ]; subst.
    inversion HF2 as [ | ? ? Hc HF3 ]; subst.
    inversion HF3 as [ | ? ? Hd _ ]; subst. tauto.
Qed.

(** C6 at the inputs where the code departs from it: a segment that only
    starts with a number in range is accepted, whatever follows the
    digits and whatever white space or sign precedes them; such a value
    of a payload is counted as an address. *)
Theorem isIPAddress_accepts_non_numeric_segments :
  isIPAddress "10.0.0.1:8080" = true /\
  isIPAddress "1.2.3.4x" = true /\
  isIPAddress " 1.+2.3e9.-0" = true /\
  ipAddresses (extractIPs (JObj [("peer", JStr "10.0.0.1:8080")])
                          (initStats []))
    !! "10.0.0.1:8080" = Some 1.
Proof. repeat split; reflexivity. Qed.

(** ** The accumulator *)

Lemma Json_nested_ind (P : Json -> Prop) :
  P JNull -> (forall b, P (JBool b)) -> (forall l, P (JNum l)) ->
  (forall s, P (JStr s)) ->
  (forall items, Forall P items -> P (JArr items)) ->
  (forall props, Forall (fun kv => P (snd kv)) props -> P (JObj props)) ->
  forall j, P j.
Proof.
  intros Hnull Hbool Hnum Hstr Harr Hobj.
  fix IH 1. intros [ | b | l | s | items | props ].
  - exact Hnull.
  - apply Hbool.
  - apply Hnum.
  - apply Hstr.
  - apply Harr. induction items as [ | j items IHitems ].
    + constructor.
    + constructor; [ apply IH | exact IHitems ].
  - apply Hobj. induction props as [ | [k j] props IHprops ].
    + constructor.
    + constructor; [ apply IH | exact IHprops ].
Qed.

Lemma assign_proto k v (o : gmap string nat) :
  o !! "__proto__" = None -> assign k v o !! "__proto__" = None.
Proof.
  intros Ho. unfold assign.
  destruct (String.eqb k "__proto__") eqn:E.
  - apply String.eqb_eq in E. subst k.
    rewrite bool_decide_eq_true_2 by exact Ho. exact Ho.
  - apply String.eqb_neq in E. cbn [andb].
    rewrite lookup_insert_ne by exact E. exact Ho.
Qed.

Lemma assign_lookup k v (o : gmap string nat) j :
  o !! "__proto__" = None ->
  assign k v o !! j
  = if bool_decide (j = k) && negb (String.eqb j "__proto__") then Some v
    else o !! j.
Proof.
  intros Ho. unfold assign.
  destruct (String.eqb k "__proto__") eqn:E.
  - apply String.eqb_eq in E. subst k.
    rewrite bool_decide_eq_true_2 by exact Ho. cbn [andb].
    destruct (bool_decide_reflect (j = "__proto__")) as [ -> | Hne ];
      reflexivity.
  - cbn [andb]. destruct (bool_decide_reflect (j = k)) as [ -> | Hne ].
    + rewrite E, lookup_insert_eq. reflexivity.
    + rewrite lookup_insert_ne by congruence. reflexivity.
Qed.

(** What the initialising loop leaves in the object it started from. *)
Lemma initStats_keys_lookup (l : list string) (m : gmap string nat) (k : string) :
  m !! "__proto__" = None ->
  fold_left (fun o keyword => assign keyword 0 o) l m !! k
  = if bool_decide (k ∈ l) && negb (String.eqb k "__proto__") then Some 0
    else m !! k.
Proof.
  revert m. induction l as [ | a l IH ]; intros m Hm; cbn [fold_left].
  - reflexivity.
  - rewrite IH by (apply assign_proto, Hm). rewrite assign_lookup by exact Hm.
    destruct (String.eqb k "__proto__") eqn:E; cbn [negb];
      [ rewrite !andb_false_r; reflexivity | rewrite !andb_true_r ].
    destruct (bool_decide_reflect (k ∈ l)) as [ Hin | Hnin ].
    + rewrite bool_decide_eq_true_2 by (right; exact Hin). reflexivity.
    + destruct (bool_decide_reflect (k = a)) as [ -> | Hne ].
      * rewrite bool_decide_eq_true_2 by left. reflexivity.
      * rewrite bool_decide_eq_false_2; [ reflexivity | ].
        intros Hin. apply elem_of_cons in Hin. tauto.
Qed.

Lemma initStats_lookup (keywords : list string) (k : string) :
  keywordMatches (initStats keywords) !! k
  = if bool_decide (k ∈ keywords) && negb (String.eqb k "__proto__")
    then Some 0 else None.
Proof.
  unfold initStats. cbn [keywordMatches].
  rewrite initStats_keys_lookup by apply lookup_empty.
  rewrite lookup_empty. reflexivity.
Qed.

Lemma initStats_inv (keywords : list string) : statsInv keywords (initStats keywords).
Proof.
  split; [ simpl; lia | ].
  apply set_eq. intros k. unfold ownKeywords.
  rewrite elem_of_dom, initStats_lookup, elem_of_difference,
    elem_of_list_to_set, not_elem_of_singleton.
  destruct (String.eqb_spec k "__proto__") as [ E | E ];
    destruct (bool_decide_reflect (k ∈ keywords)) as [ Hin | Hnin ];
    cbn [andb negb]; split;
    try (intros [x Hx]; discriminate Hx); try tauto.
  intros _. eexists. reflexivity.
Qed.

Lemma countKeyword_fields parsed st k :
  totalEntries (countKeyword parsed st k) = totalEntries st /\
  errorCount (countKeyword parsed st k) = errorCount st /\
  dom (keywordMatches (countKeyword parsed st k)) = dom (keywordMatches st) /\
  ipAddresses (countKeyword parsed st k) = ipAddresses st.
Proof.
  unfold countKeyword, incr.
  destruct (Js.includes _ _); simpl; repeat split; try reflexivity.
  apply dom_alter_L.
Qed.

Lemma countKeywords_fields keywords parsed st :
  totalEntries (countKeywords keywords parsed st) = totalEntries st /\
  errorCount (countKeywords keywords parsed st) = errorCount st /\
  dom (keywordMatches (countKeywords keywords parsed st))
    = dom (keywordMatches st) /\
  ipAddresses (countKeywords keywords parsed st) = ipAddresses st.
Proof.
  unfold countKeywords. revert st.
  induction keywords as [ | k l IH ]; intros st; simpl.
  - repeat split; reflexivity.
  - destruct (IH (countKeyword parsed st k)) as (H1 & H2 & H3 & H4).
    destruct (countKeyword_fields parsed st k) as (K1 & K2 & K3 & K4).
    repeat split; congruence.
Qed.

Lemma walkPayload_fields parsed st :
  totalEntries (walkPayload parsed st) = totalEntries st /\
  errorCount (walkPayload parsed st) = errorCount st /\
  keywordMatches (walkPayload parsed st) = keywordMatches st.
Proof.
  unfold walkPayload. destruct (isObject _); simpl; repeat split; reflexivity.
Qed.

(** Each value the accumulator takes while a record is folded keeps the
    invariant of the value it started from. *)
Lemma recordTrace_inv keywords parsed st :
  statsInv keywords st ->
  Forall (statsInv keywords) (recordTrace keywords parsed st).
Proof.
  intros [Hle Hdom]. unfold recordTrace.
  assert (I1 : statsInv keywords (incTotal st))
    by (split; simpl; [ lia | exact Hdom ]).
  assert (I2 : statsInv keywords (incError parsed (incTotal st))).
  { unfold incError. destruct (String.eqb _ _); [ | exact I1 ].
    split; simpl; [ lia | exact Hdom ]. }
  assert (I3 : statsInv keywords
                 (countKeywords keywords parsed (incError parsed (incTotal st)))).
  { destruct I2 as [L D].
    destruct (countKeywords_fields keywords parsed (incError parsed (incTotal st)))
      as (H1 & H2 & H3 & _).
    split; [ lia | congruence ]. }
  assert (I4 : statsInv keywords
                 (walkPayload parsed
                    (countKeywords keywords parsed
                       (incError parsed (incTotal st))))).
  { destruct I3 as [L D].
    destruct (walkPayload_fields parsed
                (countKeywords keywords parsed (incError parsed (incTotal st))))
      as (H1 & H2 & H3).
    split; [ lia | congruence ]. }
  assert (I5 : statsInv keywords
                 (extractIPsFromText (message parsed)
                    (walkPayload parsed
                       (countKeywords keywords parsed
                          (incError parsed (incTotal st))))))
    by (destruct I4 as [L D]; split; simpl; assumption).
  repeat (apply Forall_cons; split; [ assumption | ]). apply Forall_nil_2.
Qed.

Lemma foldRecord_inv keywords parsed st :
  statsInv keywords st -> statsInv keywords (foldRecord keywords parsed st).
Proof.
  intros H. pose proof (recordTrace_inv keywords parsed st H) as HT.
  unfold recordTrace in HT.
  do 4 (apply Forall_cons in HT; destruct HT as [_ HT]).
  apply Forall_cons in HT. exact (proj1 HT).
Qed.

Lemma foldLine_inv JSON_parse keywords st line :
  statsInv keywords st -> statsInv keywords (foldLine JSON_parse keywords st line).
Proof.
  intros H. unfold foldLine.
  destruct (parseLine JSON_parse line) as [ [parsed | ] | ]; try exact H.
  apply foldRecord_inv, H.
Qed.

Lemma fold_left_preserves {A B} (P : A -> Prop) (f : A -> B -> A) l a :
  (forall a b, P a -> P (f a b)) -> P a -> P (fold_left f l a).
Proof.
  intros Hf. revert a. induction l as [ | b l IH ]; intros a Ha; simpl.
  - exact Ha.
  - apply IH, Hf, Ha.
Qed.

(** ** Keys of [ipAddresses] *)

Lemma bump_keys (P : string -> Prop) k (m : gmap string nat) :
  P k -> map_Forall (fun ip _ => P ip) m ->
  map_Forall (fun ip _ => P ip) (bump k m).
Proof.
  intros Hk Hm. unfold bump. apply map_Forall_insert_2; assumption.
Qed.

Lemma extractIPs_ips_keys obj (m : gmap string nat) :
  map_Forall (fun ip _ => isIPAddress ip = true) m ->
  map_Forall (fun ip _ => isIPAddress ip = true) (extractIPs_ips obj m).
Proof.
  revert m. induction obj as [ | b | l | s | items IH | props IH ]
    using Json_nested_ind; intros m Hm; simpl; try exact Hm.
  - revert m Hm. induction IH as [ | j items Hj _ IHitems ]; intros m Hm.
    + exact Hm.
    + apply IHitems. destruct j; try exact Hm.
      * destruct (isIPAddress s) eqn:E; [ | exact Hm ].
        apply bump_keys; assumption.
      * apply Hj, Hm.
      * apply Hj, Hm.
  - revert m Hm. induction IH as [ | [k j] props Hj _ IHprops ]; intros m Hm.
    + exact Hm.
    + apply IHprops. simpl in Hj. destruct j; try exact Hm.
      * destruct (isIPAddress s) eqn:E; [ | exact Hm ].
        apply bump_keys; assumption.
      * apply Hj, Hm.
      * apply Hj, Hm.
Qed.

Lemma extractIPs_keys obj st : ipKeysInv st -> ipKeysInv (extractIPs obj st).
Proof. unfold ipKeysInv, extractIPs. simpl. apply extractIPs_ips_keys. Qed.

Lemma extractIPsFromText_keys text st :
  ipKeysInv st -> ipKeysInv (extractIPsFromText text st).
Proof.
  unfold ipKeysInv, extractIPsFromText. simpl.
  apply fold_left_preserves. intros m ip Hm.
  destruct (isIPAddress ip) eqn:E; [ | exact Hm ].
  apply bump_keys; assumption.
Qed.

Lemma walkPayload_keys parsed st : ipKeysInv st -> ipKeysInv (walkPayload parsed st).
Proof.
  unfold walkPayload. destruct (isObject _); [ apply extractIPs_keys | trivial ].
Qed.

Lemma incError_ips parsed st : ipAddresses (incError parsed st) = ipAddresses st.
Proof. unfold incError. destruct (String.eqb _ _); reflexivity. Qed.

Lemma recordTrace_keys keywords parsed st :
  ipKeysInv st -> Forall ipKeysInv (recordTrace keywords parsed st).
Proof.
  intros H. unfold recordTrace.
  assert (I1 : ipKeysInv (incTotal st)) by exact H.
  assert (I2 : ipKeysInv (incError parsed (incTotal st)))
    by (unfold ipKeysInv; rewrite incError_ips; exact H).
  assert (I3 : ipKeysInv
                 (countKeywords keywords parsed (incError parsed (incTotal st)))).
  { unfold ipKeysInv.
    destruct (countKeywords_fields keywords parsed (incError parsed (incTotal st)))
      as (_ & _ & _ & ->). exact I2. }
  pose proof (walkPayload_keys parsed _ I3) as I4.
  pose proof (extractIPsFromText_keys (message parsed) _ I4) as I5.
  repeat (apply Forall_cons; split; [ assumption | ]). apply Forall_nil_2.
Qed.

Lemma foldRecord_keys keywords parsed st :
  ipKeysInv st -> ipKeysInv (foldRecord keywords parsed st).
Proof.
  intros H. pose proof (recordTrace_keys keywords parsed st H) as HT.
  unfold recordTrace in HT.
  do 4 (apply Forall_cons in HT; destruct HT as [_ HT]).
  apply Forall_cons in HT. exact (proj1 HT).
Qed.

Lemma foldLine_keys JSON_parse keywords st line :
  ipKeysInv st -> ipKeysInv (foldLine JSON_parse keywords st line).
Proof.
  intros H. unfold foldLine.
  destruct (parseLine JSON_parse line) as [ [parsed | ] | ]; try exact H.
  apply foldRecord_keys, H.
Qed.

Lemma initStats_keys keywords : ipKeysInv (initStats keywords).
Proof. unfold ipKeysInv. simpl. apply map_Forall_empty. Qed.

(** ** Suspension points and the timer *)

Lemma slept_cons t e :
  sleepsIn (e :: t)
  = sleepsIn t ++ match e with Slept ms => [ms] | _ => [] end.
Proof.
  unfold sleepsIn. rewrite reverse_cons, omap_app. simpl.
  destruct e; reflexivity.
Qed.

Lemma statusWrites_cons t e :
  writesIn (e :: t)
  = writesIn t ++ match e with
                  | DbStatus _ st p err => [(st, p, err)]
                  | DbStats _ _ st p => [(st, p, None)]
                  | _ => []
                  end.
Proof.
  unfold writesIn. rewrite reverse_cons, omap_app. simpl.
  destruct e; reflexivity.
Qed.

(** What a suspension point can change: the timer callback may run, which
    touches neither the scratch files nor the download counter and never
    sleeps; the handler itself always resumes. *)
Lemma suspend_spec env id w :
  exists w',
    suspend env id w = (Returns tt, w') /\
    downloads w' = downloads w /\
    files w' = files w /\
    slept w' = slept w /\
    ((forall n, dbError env n <> None) -> statusWrites w' = statusWrites w).
Proof.
  unfold suspend, bind, nextTick, get, ret. simpl.
  destruct (timeoutId w) as [deadline | ]; simpl.
  - destruct (Z.leb deadline (clock env (S (ticks w)))); simpl.
    + unfold onSafetyTimeout, tryCatch, bind, setAborted, modify,
        updateJobStatus_write, bind, nextDbCall, emit, modify, throw. simpl.
      destruct (dbError env (dbCalls w)) as [e | ] eqn:E; simpl.
      * eexists. split; [ reflexivity | ]. simpl.
        split; [ reflexivity | ]. split; [ reflexivity | ].
        unfold slept, statusWrites. cbn [trace].
        rewrite !slept_cons, !statusWrites_cons, !app_nil_r. fold_obs.
        split; reflexivity.
      * eexists. split; [ reflexivity | ]. simpl.
        split; [ reflexivity | ]. split; [ reflexivity | ].
        split.
        -- unfold slept. cbn [trace].
           rewrite !slept_cons, !app_nil_r. fold_obs. reflexivity.
        -- intros Hdb. destruct (Hdb _ E).
    + eexists. split; [ reflexivity | ]. repeat split; reflexivity.
  - eexists. split; [ reflexivity | ]. repeat split; reflexivity.
Qed.

(** ** The scanning loop *)

Lemma parseLine_returns JSON_parse line :
  exists r, parseLine JSON_parse line = Returns r.
Proof.
  unfold parseLine.
  destruct (LOG_REGEX line) as [ [[[ts lvl] msg] js] | ]; eexists; reflexivity.
Qed.

Lemma checkpoint_stats env id est t st lc bs lmc v w v' w' :
  checkpoint env id est t st lc bs lmc v w = (Returns v', w') ->
  stats v' = st.
Proof.
  unfold checkpoint. intros H.
  destruct (Nat.leb BATCH_SIZE bs || Z.ltb 5000 (t - lastProgressUpdate v)).
  - destruct (Nat.leb (reportedProgress v + 5) (lc * 80 / est + 20)
              || Z.ltb 5000 (t - lastProgressUpdate v)).
    + do 3 bind_cases H. unfold ret in H. injection H as <- _. reflexivity.
    + unfold ret in H. injection H as <- _. reflexivity.
  - unfold ret in H. injection H as <- _. reflexivity.
Qed.

(** The statistics the loop ends with do not depend on the shared
    [aborted] variable, only on the value its parameter was given. *)
Lemma scanLoop_stats env JSON_parse keywords id ab est lines :
  forall v w v' w',
    scanLoop env JSON_parse keywords id ab est lines v w = (Returns v', w') ->
    stats v' = if ab then stats v
               else fold_left (foldLine JSON_parse keywords) lines (stats v).
Proof.
  induction lines as [ | line rest IH ]; intros v w v' w' H; simpl in H.
  - unfold ret in H. injection H as <- _. destruct ab; reflexivity.
  - unfold bind in H at 1.
    destruct (suspend_spec env id w) as (w1 & E1 & _). rewrite E1 in H.
    destruct ab.
    + unfold ret in H. injection H as <- _. reflexivity.
    + unfold bind in H at 1. unfold now in H at 1.
      unfold bind in H at 1. unfold get in H at 1. unfold ret in H at 1.
      bind_cases H.
      unfold bind in H at 1. unfold liftResult in H at 1.
      destruct (parseLine JSON_parse line) as [ parsed | e ] eqn:EP;
        try discriminate H.
      bind_cases H.
      apply IH in H. simpl in H. rewrite H. simpl.
      match goal with
      | E : checkpoint _ _ _ _ _ _ _ _ _ _ = _ |- _ =>
          apply checkpoint_stats in E; rewrite E
      end.
      unfold foldLine. rewrite EP. reflexivity.
Qed.

Lemma processLogFile_stats env JSON_parse keywords path id ab w st w' :
  processLogFile env JSON_parse keywords path id ab w = (Returns st, w') ->
  exists lines ms,
    st = withProcessingTime
           (fold_left (foldLine JSON_parse keywords) lines (initStats keywords))
           ms.
Proof.
  unfold processLogFile. intros H.
  unfold bind in H at 1. unfold now in H at 1.
  unfold bind in H at 1. unfold get in H at 1. unfold ret in H at 1.
  unfold bind in H at 1. unfold get in H at 1.
  destruct (files w !! path) as [content | ]; [ | discriminate H ].
  unfold bind in H at 1. unfold tryCatch in H at 1.
  match type of H with
  | context [ scanLoop ?e ?j ?k ?i ?a ?n ?l ?v ?w0 ] =>
      destruct (scanLoop e j k i a n l v w0) as [ [ v1 | err ] w1 ] eqn:ES
  end.
  - apply scanLoop_stats in ES. simpl in ES.
    unfold bind in H at 1. unfold now in H at 1. unfold bind, get, ret in H.
    injection H as <- _. rewrite ES.
    destruct ab.
    + exists [], (clock env (ticks w1) - clock env (ticks w))%Z. reflexivity.
    + eexists _, _. reflexivity.
  - unfold bind, emit, modify, throw in H. simpl in H. discriminate H.
Qed.

Lemma foldLines_inv JSON_parse keywords lines :
  statsInv keywords (foldLines JSON_parse keywords lines).
Proof.
  unfold foldLines. apply fold_left_preserves.
  - intros st line. apply foldLine_inv.
  - apply initStats_inv.
Qed.

Lemma foldLines_keys JSON_parse keywords lines :
  ipKeysInv (foldLines JSON_parse keywords lines).
Proof.
  unfold foldLines. apply fold_left_preserves.
  - intros st line. apply foldLine_keys.
  - apply initStats_keys.
Qed.

(** C9, with the one keyword at which the code departs from it.  At scan
    start the keys of [keywordMatches] are the monitored keywords other
    than [__proto__], each with the count 0; after any number of lines, at
    each mutation made while a record is folded, and in the statistics
    [processLogFile] returns (whole or cut short),
    [errorCount <= totalEntries] holds and [keywordMatches] has the keys
    it started with, every one of them a monitored keyword.  The monitored
    keyword [__proto__] itself is never a key: the initialising assignment
    reaches the setter the object literal inherits, so with
    [MONITORED_KEYWORDS=error,__proto__] the counters start as
    [{error: 0}] and stay so after a record whose message holds the
    keyword. *)
Theorem proto_keyword_is_never_initialised
  (env : Env) (JSON_parse : string -> JsResult Json) (keywords : list string) :
  (forall k,
      keywordMatches (initStats keywords) !! k
      = if bool_decide (k ∈ keywords) && negb (String.eqb k "__proto__")
        then Some 0 else None)
  /\ (forall lines, statsInv keywords (foldLines JSON_parse keywords lines))
  /\ (forall lines parsed,
        Forall (statsInv keywords)
               (recordTrace keywords parsed
                            (foldLines JSON_parse keywords lines)))
  /\ (forall path id ab w,
        match processLogFile env JSON_parse keywords path id ab w with
        | (Returns st, _) => statsInv keywords st
        | (Throws _, _) => True
        end)
  /\ protoScenario = ["error"; "__proto__"]
  /\ keywordMatches (initStats protoScenario) = {["error" := 0]}
  /\ (let st := foldLines JSON_parse protoScenario [protoLine] in
      totalEntries st = 1 /\
      Js.includes (Js.toLowerCase protoMessage) "__proto__" = true /\
      keywordMatches st = {["error" := 0]}).
Proof.
  split; [ | split; [ | split; [ | split; [ | split; [ | split ] ] ] ] ].
  - apply initStats_lookup.
  - apply foldLines_inv.
  - intros lines parsed. apply recordTrace_inv, foldLines_inv.
  - intros path id ab w.
    destruct (processLogFile env JSON_parse keywords path id ab w)
      as [ [ st | e ] w' ] eqn:E; [ | exact I ].
    apply processLogFile_stats in E. destruct E as (lines & ms & ->).
    exact (foldLines_inv JSON_parse keywords lines).
  - reflexivity.
  - reflexivity.
  - split; [ reflexivity | ]. split; reflexivity.
Qed.

(** C10: after any number of lines, at each mutation made while a record
    is folded (the payload walk and the text scan included), and in the
    statistics [processLogFile] returns, every key of [ipAddresses] is a
    string [isIPAddress] accepts; and what [isIPAddress] accepts are the
    strings that split at the dots into exactly four segments, each of
    which [parseInt] reads as an integer from 0 to 255. *)
Theorem ip_keys_pass_isIPAddress
  (env : Env) (JSON_parse : string -> JsResult Json) (keywords : list string) :
  (forall lines, ipKeysInv (foldLines JSON_parse keywords lines))
  /\ (forall lines parsed,
        Forall ipKeysInv
               (recordTrace keywords parsed
                            (foldLines JSON_parse keywords lines)))
  /\ (forall path id ab w,
        match processLogFile env JSON_parse keywords path id ab w with
        | (Returns st, _) => ipKeysInv st
        | (Throws _, _) => True
        end)
  /\ (forall ip,
        isIPAddress ip = true <->
        exists a b c d,
          Js.split "." ip = [a; b; c; d] /\
          Forall (fun part =>
                    exists num,
                      Js.parseInt part = Some num /\ (0 <= num <= 255)%Z)
                 [a; b; c; d]).
Proof.
  split; [ | split; [ | split ] ]; [ | | | apply isIPAddress_spec ].
  - apply foldLines_keys.
  - intros lines parsed. apply recordTrace_keys, foldLines_keys.
  - intros path id ab w.
    destruct (processLogFile env JSON_parse keywords path id ab w)
      as [ [ st | e ] w' ] eqn:E; [ | exact I ].
    apply processLogFile_stats in E. destruct E as (lines & ms & ->).
    exact (foldLines_keys JSON_parse keywords lines).
Qed.

(** ** Keyword counting *)

Lemma countKeywords_lookup keywords parsed st k :
  keywordMatches (countKeywords keywords parsed st) !! k
  = (fun n => n + if Js.includes (Js.toLowerCase (message parsed)) k
                  then count_occ string_dec keywords k else 0)
      <$> keywordMatches st !! k.
Proof.
  unfold countKeywords. revert st.
  induction keywords as [ | k' l IH ]; intros st; simpl.
  - destruct (keywordMatches st !! k) as [ n | ]; simpl; [ | reflexivity ].
    f_equal. destruct (Js.includes _ _); lia.
  - rewrite IH. unfold countKeyword, incr.
    destruct (string_dec k' k) as [ -> | Hne ].
    + destruct (Js.includes (Js.toLowerCase (message parsed)) k); simpl.
      * rewrite lookup_alter, decide_True by reflexivity.
        destruct (keywordMatches st !! k) as [ n | ]; simpl; [ | reflexivity ].
        f_equal. lia.
      * reflexivity.
    + destruct (Js.includes (Js.toLowerCase (message parsed)) k'); simpl.
      * rewrite lookup_alter, decide_False by exact Hne. reflexivity.
      * reflexivity.
Qed.

Lemma foldRecord_errorCount keywords parsed st :
  errorCount (foldRecord keywords parsed st)
  = errorCount st
    + if String.eqb (Js.toLowerCase (level parsed)) "error" then 1 else 0.
Proof.
  unfold foldRecord. simpl.
  destruct (walkPayload_fields parsed
              (countKeywords keywords parsed (incError parsed (incTotal st))))
    as (_ & -> & _).
  destruct (countKeywords_fields keywords parsed (incError parsed (incTotal st)))
    as (_ & -> & _).
  unfold incError. destruct (String.eqb _ _); simpl; lia.
Qed.

Lemma foldRecord_keywordMatches keywords parsed st k :
  keywordMatches (foldRecord keywords parsed st) !! k
  = (fun n => n + if Js.includes (Js.toLowerCase (message parsed)) k
                  then count_occ string_dec keywords k else 0)
      <$> keywordMatches st !! k.
Proof.
  unfold foldRecord. simpl.
  destruct (walkPayload_fields parsed
              (countKeywords keywords parsed (incError parsed (incTotal st))))
    as (_ & _ & ->).
  rewrite countKeywords_lookup. unfold incError.
  destruct (String.eqb _ _); reflexivity.
Qed.

Lemma parseLine_keywordLine JSON_parse :
  parseLine JSON_parse keywordLine
  = Returns (Some (mkParsedLog "t" "ERROR" "something timeout happened" JNull)).
Proof. reflexivity. Qed.

Lemma foldLine_keywordLine JSON_parse st :
  foldLine JSON_parse keywordScenario st keywordLine
  = mkLogStats (S (totalEntries st)) (S (errorCount st))
               (incr "timeout" (keywordMatches st)) (ipAddresses st)
               (processingTime st).
Proof.
  unfold foldLine. rewrite parseLine_keywordLine.
  reflexivity.
Qed.

Lemma iter_incr (k : string) n (m : gmap string nat) a :
  m !! k = Some a -> Nat.iter n (incr k) m = <[k := n + a]> m.
Proof.
  intros Hk. induction n as [ | n IH ]; simpl.
  - symmetry. apply insert_id. exact Hk.
  - rewrite IH. unfold incr. apply map_eq. intros j.
    rewrite lookup_alter. destruct (decide (k = j)) as [ <- | Hne ].
    + rewrite !lookup_insert_eq. reflexivity.
    + rewrite !lookup_insert_ne by exact Hne. reflexivity.
Qed.

Lemma fold_keywordLines JSON_parse n :
  forall st,
    fold_left (foldLine JSON_parse keywordScenario) (repeat keywordLine n) st
    = mkLogStats (n + totalEntries st) (n + errorCount st)
                 (Nat.iter n (incr "timeout") (keywordMatches st))
                 (ipAddresses st) (processingTime st).
Proof.
  induction n as [ | n IH ]; intros st.
  - destruct st; reflexivity.
  - cbn [repeat fold_left]. rewrite IH, foldLine_keywordLine.
    cbn [totalEntries errorCount keywordMatches ipAddresses processingTime].
    rewrite <- Nat.iter_succ_r. f_equal; lia.
Qed.

(** C8, as the code has it: the word [error] of the scenario line is its
    level, not part of its message, so each such line adds 1 to
    [errorCount] and to the counter of [timeout] and leaves the counter of
    [error] at 0.  In general a record adds 1 to [errorCount] when its
    lower-cased level is [error], and adds to the counter of a keyword,
    once per time the keyword is listed, when the keyword occurs in the
    lower-cased message. *)
Theorem keyword_counting_per_line
  (JSON_parse : string -> JsResult Json) (n : nat) :
  keywordScenario = ["error"; "timeout"]
  /\ (let st := foldLines JSON_parse keywordScenario (repeat keywordLine n) in
      totalEntries st = n /\ errorCount st = n /\
      keywordMatches st = <["error" := 0]> {["timeout" := n]})
  /\ (forall keywords parsed st,
        errorCount (foldRecord keywords parsed st)
        = errorCount st
          + if String.eqb (Js.toLowerCase (level parsed)) "error"
            then 1 else 0)
  /\ (forall keywords parsed st k,
        keywordMatches (foldRecord keywords parsed st) !! k
        = (fun c => c + if Js.includes (Js.toLowerCase (message parsed)) k
                        then count_occ string_dec keywords k else 0)
            <$> keywordMatches st !! k).
Proof.
  split; [ reflexivity | ]. split; [ | split ].
  - unfold foldLines. rewrite fold_keywordLines.
    cbn [totalEntries errorCount keywordMatches]. simpl totalEntries.
    simpl errorCount. split; [ lia | ]. split; [ lia | ].
    rewrite (iter_incr "timeout" n _ 0) by reflexivity.
    apply map_eq. intros j.
    destruct (decide ("timeout" = j)) as [ <- | Ht ].
    + rewrite lookup_insert_eq, lookup_insert_ne by discriminate.
      rewrite lookup_singleton_eq. f_equal. lia.
    + rewrite lookup_insert_ne by exact Ht.
      destruct (decide ("error" = j)) as [ <- | He ].
      * rewrite lookup_insert_eq. reflexivity.
      * rewrite lookup_insert_ne by exact He.
        rewrite lookup_singleton_ne by exact Ht.
        rewrite initStats_lookup, bool_decide_eq_false_2; [ reflexivity | ].
        change keywordScenario with ["error"; "timeout"]. set_solver.
  - apply foldRecord_errorCount.
  - apply foldRecord_keywordMatches.
Qed.

(** C8 as stated fails on its own scenario: one scenario line leaves the
    counter of [error] at 0, not 1. *)
Lemma keyword_scenario_error_counter_stays_zero :
  let st := foldLines rejectJson keywordScenario [keywordLine] in
  errorCount st = 1 /\
  keywordMatches st !! "error" = Some 0 /\
  keywordMatches st !! "timeout" = Some 1 /\
  keywordMatches st <> <["error" := 1]> {["timeout" := 1]}.
Proof.
  split; [ reflexivity | ]. split; [ reflexivity | ]. split; [ reflexivity | ].
  intros H. apply (f_equal (fun m => m !! "error")) in H.
  vm_compute in H. discriminate H.
Qed.

(** ** The matchers *)

Section MatcherFacts.
Context {R : Type}.
Implicit Types (k : @Re.Cont R) (p : ascii -> bool).

Lemma snoc_append acc c a : Re.snoc acc c +:+ a = acc +:+ String c a.
Proof. unfold Re.snoc. rewrite append_assoc. reflexivity. Qed.

Lemma lazy_star_here p acc s k r :
  k acc s = Some r -> Re.lazy_star p acc s k = Some r.
Proof. intros H. destruct s; simpl; rewrite H; reflexivity. Qed.

(** A lazy star passes over a run on which the continuation fails at
    every earlier stop. *)
Lemma lazy_star_skip p a : forall acc rest k,
  Js.forallbS p a = true ->
  (forall a1 a2, a = a1 +:+ a2 -> a2 <> EmptyString ->
                 k (acc +:+ a1) (a2 +:+ rest) = None) ->
  Re.lazy_star p acc (a +:+ rest) k = Re.lazy_star p (acc +:+ a) rest k.
Proof.
  induction a as [ | c a IH ]; intros acc rest k Hp Hk.
  - rewrite append_nil_r. reflexivity.
  - simpl in Hp. apply andb_true_iff in Hp. destruct Hp as [Hc Ha].
    rewrite append_cons. simpl.
    pose proof (Hk EmptyString (String c a) eq_refl) as H0.
    rewrite append_nil_r, append_cons in H0. rewrite H0 by discriminate.
    rewrite Hc. rewrite IH.
    + rewrite snoc_append. reflexivity.
    + exact Ha.
    + intros a1 a2 E Hne. rewrite snoc_append.
      apply (Hk (String c a1) a2); [ | exact Hne ].
      rewrite append_cons, E. reflexivity.
Qed.

Lemma greedy_star_none p s : forall acc k,
  (forall t1 t2, s = t1 +:+ t2 -> k (acc +:+ t1) t2 = None) ->
  Re.greedy_star p acc s k = None.
Proof.
  induction s as [ | c s IH ]; intros acc k Hk; simpl.
  - rewrite <- (append_nil_r acc). apply (Hk EmptyString). reflexivity.
  - assert (H0 : k acc (String c s) = None).
    { rewrite <- (append_nil_r acc). apply (Hk EmptyString). reflexivity. }
    destruct (p c); [ | exact H0 ].
    rewrite IH; [ exact H0 | ].
    intros t1 t2 E. rewrite snoc_append.
    apply Hk. rewrite append_cons, E. reflexivity.
Qed.

(** A greedy star stops at the longest run at which the continuation
    succeeds. *)
Lemma greedy_star_first p a : forall acc t k r,
  Js.forallbS p a = true ->
  (forall t1 t2, t = t1 +:+ t2 -> t1 <> EmptyString ->
                 k (acc +:+ a +:+ t1) t2 = None) ->
  k (acc +:+ a) t = Some r ->
  Re.greedy_star p acc (a +:+ t) k = Some r.
Proof.
  induction a as [ | c a IH ]; intros acc t k r Hp Hk Hr.
  - rewrite append_nil_l. rewrite append_nil_r in Hr.
    destruct t as [ | c t ]; simpl; [ exact Hr | ].
    destruct (p c); [ | exact Hr ].
    rewrite greedy_star_none; [ exact Hr | ].
    intros t1 t2 E. rewrite snoc_append.
    pose proof (Hk (String c t1) t2) as H0.
    rewrite append_nil_l in H0. apply H0; [ | discriminate ].
    rewrite append_cons, E. reflexivity.
  - simpl in Hp. apply andb_true_iff in Hp. destruct Hp as [Hc Ha].
    rewrite append_cons. simpl. rewrite Hc.
    rewrite (IH (Re.snoc acc c) t k r); try reflexivity; try exact Ha.
    + intros t1 t2 E Hne. rewrite snoc_append, <- append_cons.
      apply Hk; assumption.
    + rewrite snoc_append. exact Hr.
Qed.

(** In particular at the whole run, when the next character is not of
    the class. *)
Lemma greedy_star_max p a acc t k r :
  Js.forallbS p a = true -> headNot p t = true ->
  k (acc +:+ a) t = Some r ->
  Re.greedy_star p acc (a +:+ t) k = Some r.
Proof.
  revert acc. induction a as [ | c a IH ]; intros acc Hp Ht Hr.
  - rewrite append_nil_l. rewrite append_nil_r in Hr.
    destruct t as [ | c t ]; simpl; [ exact Hr | ].
    simpl in Ht. apply negb_true_iff in Ht. rewrite Ht. exact Hr.
  - simpl in Hp. apply andb_true_iff in Hp. destruct Hp as [Hc Ha].
    rewrite append_cons. simpl. rewrite Hc.
    rewrite IH; try reflexivity; try assumption.
    rewrite snoc_append. exact Hr.
Qed.

Lemma greedy_plus_max p a t k r :
  a <> EmptyString -> Js.forallbS p a = true -> headNot p t = true ->
  k a t = Some r ->
  Re.greedy_plus p (a +:+ t) k = Some r.
Proof.
  intros Hne Hp Ht Hr. destruct a as [ | c a ]; [ congruence | ].
  simpl in Hp. apply andb_true_iff in Hp. destruct Hp as [Hc Ha].
  rewrite append_cons. unfold Re.greedy_plus. rewrite Hc.
  apply greedy_star_max; assumption.
Qed.

(** White space followed by a brace: only the whole run of white space
    can be followed by the brace. *)
Lemma greedy_star_space_brace s : forall acc (k' : string -> option R),
  Re.greedy_star Js.isSpace acc s (fun _ s1 => Re.lit "{" s1 k')
  = Re.lit "{" (Js.dropWhile Js.isSpace s) k'.
Proof.
  induction s as [ | c s IH ]; intros acc k'.
  - reflexivity.
  - cbn [Re.greedy_star Js.dropWhile]. destruct (Js.isSpace c) eqn:Ec.
    + rewrite IH.
      assert (Hc : Re.lit "{" (String c s) k' = None)
        by (destruct c as [ [] [] [] [] [] [] [] [] ];
            try discriminate Ec; reflexivity).
      rewrite Hc. destruct (Re.lit "{" (Js.dropWhile Js.isSpace s) k');
        reflexivity.
    + reflexivity.
Qed.

End MatcherFacts.

(** ** [LOG_REGEX] on the lines of the grammar *)

Lemma dropWhile_all_app p w t :
  Js.forallbS p w = true -> headNot p t = true ->
  Js.dropWhile p (w +:+ t) = t.
Proof.
  intros Hw Ht. induction w as [ | c w IH ].
  - rewrite append_nil_l. destruct t as [ | c t ]; [ reflexivity | ].
    simpl in *. apply negb_true_iff in Ht. rewrite Ht. reflexivity.
  - simpl in Hw. apply andb_true_iff in Hw. destruct Hw as [Hc Hw].
    rewrite append_cons. simpl. rewrite Hc. apply IH, Hw.
Qed.

(** The optional group as a whole. *)
Lemma greedy_plus_space_brace {R} s (k' : string -> option R) :
  Re.greedy_plus Js.isSpace s (fun _ s1 => Re.lit "{" s1 k')
  = if negb (headNot Js.isSpace s) && nonEmpty s
    then Re.lit "{" (Js.dropWhile Js.isSpace s) k' else None.
Proof.
  destruct s as [ | c s ]; [ reflexivity | ].
  unfold Re.greedy_plus. cbn [headNot Js.dropWhile].
  destruct (Js.isSpace c); [ | reflexivity ].
  rewrite greedy_star_space_brace. reflexivity.
Qed.

Lemma noPair_app_r p q a b : noPair p q (a +:+ b) = true -> noPair p q b = true.
Proof.
  induction a as [ | c a IH ]; [ trivial | ].
  rewrite append_cons. cbn [noPair]. intros H.
  apply andb_true_iff in H. apply IH, H.
Qed.

(** After white space inside the message no brace comes first. *)
Lemma lit_brace_inside {R} x : forall tail (k' : string -> option R),
  noPair Js.isSpace (Ascii.eqb "{") x = true ->
  headNot Js.isSpace x = false ->
  Js.forallbS Js.isSpace x = false \/ tail = EmptyString ->
  Re.lit "{" (Js.dropWhile Js.isSpace (x +:+ tail)) k' = None.
Proof.
  induction x as [ | d x IH ]; intros tail k' Hno Hhead Hcase.
  - discriminate Hhead.
  - cbn [headNot] in Hhead. apply negb_false_iff in Hhead.
    cbn [noPair] in Hno. apply andb_true_iff in Hno. destruct Hno as [Hd Hno].
    rewrite Hhead in Hd. cbn [negb orb] in Hd.
    rewrite append_cons. cbn [Js.dropWhile]. rewrite Hhead.
    cbn [Js.forallbS] in Hcase. rewrite Hhead in Hcase. cbn [andb] in Hcase.
    destruct x as [ | e x ].
    + rewrite append_nil_l. destruct Hcase as [ H | -> ];
        [ discriminate H | reflexivity ].
    + destruct (Js.isSpace e) eqn:Ee.
      * apply IH; [ exact Hno | cbn [headNot]; rewrite Ee; reflexivity | ].
        exact Hcase.
      * rewrite append_cons. cbn [Js.dropWhile]. rewrite Ee.
        cbn [headNot] in Hd. apply negb_true_iff in Hd.
        cbn [Re.lit]. rewrite Hd. reflexivity.
Qed.

(** Inside the message the tail of the pattern cannot match. *)
Lemma LOG_REGEX_tail_inside ts lvl m1 m2 tail :
  m2 <> EmptyString -> noPair Js.isSpace (Ascii.eqb "{") m2 = true ->
  Js.forallbS Js.isSpace m2 = false \/ tail = EmptyString ->
  LOG_REGEX_tail ts lvl m1 (m2 +:+ tail) = None.
Proof.
  intros Hne Hno Hcase. unfold LOG_REGEX_tail.
  rewrite greedy_plus_space_brace.
  destruct m2 as [ | c m2 ]; [ congruence | ].
  destruct (headNot Js.isSpace (String c m2)) eqn:Eh.
  - rewrite append_cons. cbn [headNot] in Eh |- *. rewrite Eh. reflexivity.
  - rewrite lit_brace_inside by assumption. rewrite append_cons.
    destruct (negb (headNot Js.isSpace (String c (m2 +:+ tail)))
              && nonEmpty (String c (m2 +:+ tail))); reflexivity.
Qed.

Lemma LOG_REGEX_tail_payload ts lvl msg ws3 body :
  nonEmpty ws3 = true -> Js.forallbS Js.isSpace ws3 = true ->
  Js.forallbS Js.isDot body = true ->
  LOG_REGEX_tail ts lvl msg (ws3 +:+ payloadText body)
  = Some (ts, lvl, msg, Some (payloadText body)).
Proof.
  intros Hne Hws Hbody. unfold LOG_REGEX_tail.
  rewrite greedy_plus_space_brace.
  assert (Hhead : negb (headNot Js.isSpace (ws3 +:+ payloadText body))
                  && nonEmpty (ws3 +:+ payloadText body) = true).
  { destruct ws3 as [ | c w ]; [ discriminate Hne | ].
    simpl in Hws. apply andb_true_iff in Hws. destruct Hws as [Hc _].
    rewrite append_cons. cbn [headNot]. rewrite Hc. reflexivity. }
  rewrite Hhead.
  rewrite dropWhile_all_app by (exact Hws || reflexivity).
  unfold payloadText at 1. rewrite append_cons, append_nil_l.
  cbn [Re.lit]. rewrite Ascii.eqb_refl.
  rewrite (greedy_star_first Js.isDot body EmptyString "}" _
             (ts, lvl, msg, Some (payloadText body))).
  - reflexivity.
  - exact Hbody.
  - intros t1 t2 E Hne1. rewrite append_nil_l.
    destruct t1 as [ | c1 t1 ]; [ congruence | ].
    rewrite append_cons in E. injection E as <- E.
    destruct t1; [ | discriminate E ]. rewrite append_nil_l in E. subst t2.
    reflexivity.
  - rewrite append_nil_l. reflexivity.
Qed.

Lemma lastChar_app s c t : Re.lastChar (s +:+ String c t) = Re.lastChar (String c t).
Proof.
  induction s as [ | d s IH ]; [ reflexivity | ].
  rewrite append_cons. cbn [Re.lastChar].
  destruct (s +:+ String c t) eqn:E; [ | exact IH ].
  destruct s; discriminate E.
Qed.

Lemma forallbS_lastChar p s :
  s <> EmptyString -> Js.forallbS p s = true ->
  exists c, Re.lastChar s = Some c /\ p c = true.
Proof.
  induction s as [ | d s IH ]; intros Hne Hp; [ congruence | ].
  simpl in Hp. apply andb_true_iff in Hp. destruct Hp as [Hd Hs].
  destruct s as [ | e s ].
  - exists d. split; [ reflexivity | exact Hd ].
  - destruct IH as (c & Hc & Hpc); [ discriminate | exact Hs | ].
    exists c. split; [ exact Hc | exact Hpc ].
Qed.

Lemma suffix_not_all_space m1 m2 :
  m2 <> EmptyString -> lastNot Js.isSpace (m1 +:+ m2) = true ->
  Js.forallbS Js.isSpace m2 = false.
Proof.
  intros Hne Hlast. destruct (Js.forallbS Js.isSpace m2) eqn:E; [ | reflexivity ].
  destruct (forallbS_lastChar _ _ Hne E) as (c & Hc & Hsp).
  destruct m2 as [ | d m2 ]; [ congruence | ].
  unfold lastNot in Hlast. rewrite lastChar_app, Hc, Hsp in Hlast.
  discriminate Hlast.
Qed.

Lemma forallbS_app p a b :
  Js.forallbS p (a +:+ b) = Js.forallbS p a && Js.forallbS p b.
Proof.
  induction a as [ | c a IH ]; [ reflexivity | ].
  rewrite append_cons. simpl. rewrite IH, andb_assoc. reflexivity.
Qed.

Lemma word_not_space c : Js.isWord c = true -> Js.isSpace c = false.
Proof.
  destruct c as [ [] [] [] [] [] [] [] [] ]; intros H;
    try discriminate H; reflexivity.
Qed.

Lemma space_not_word c : Js.isSpace c = true -> Js.isWord c = false.
Proof.
  destruct c as [ [] [] [] [] [] [] [] [] ]; intros H;
    try discriminate H; reflexivity.
Qed.

Lemma headNot_app p q a t :
  nonEmpty a = true -> Js.forallbS q a = true ->
  (forall c, q c = true -> p c = false) ->
  headNot p (a +:+ t) = true.
Proof.
  intros Hne Hq Hqp. destruct a as [ | c a ]; [ discriminate Hne | ].
  simpl in Hq. apply andb_true_iff in Hq. destruct Hq as [Hc _].
  rewrite append_cons. simpl. rewrite (Hqp _ Hc). reflexivity.
Qed.

Lemma nonEmpty_ne s : nonEmpty s = true -> s <> EmptyString.
Proof. intros H ->. discriminate H. Qed.

(** Before the first opening bracket the pattern cannot start. *)
Lemma LOG_REGEX_skip pre s :
  noChar "[" pre = true -> LOG_REGEX (pre +:+ s) = LOG_REGEX s.
Proof.
  induction pre as [ | c pre IH ]; intros H; [ reflexivity | ].
  unfold noChar in H. cbn [Js.forallbS] in H.
  apply andb_true_iff in H. destruct H as [Hc H].
  apply negb_true_iff in Hc.
  rewrite append_cons. cbn [LOG_REGEX]. unfold LOG_REGEX_here at 1.
  cbn [Re.lit]. rewrite Ascii.eqb_sym, Hc. apply IH, H.
Qed.

(** On a well-formed line the pattern matches at the bracket and its
    groups are the pieces of the line. *)
Lemma LOG_REGEX_render pre lp :
  noChar "[" pre = true -> wellFormed lp = true ->
  LOG_REGEX (pre +:+ render lp)
  = Some (lp_timestamp lp, lp_level lp, lp_message lp,
          match lp_payload lp with
          | Some (_, body) => Some (payloadText body)
          | None => None
          end).
Proof.
  intros Hpre. rewrite (LOG_REGEX_skip pre _ Hpre). clear pre Hpre.
  destruct lp as [ts ws1 lvl ws2 msg payload]. unfold wellFormed, render.
  cbn [lp_timestamp lp_ws1 lp_level lp_ws2 lp_message lp_payload].
  intros H. split_andb H.
  rename H into Hts, W9 into Hts', W8 into Hws1, W7 into Hws1', W6 into Hlvl,
    W5 into Hlvl', W4 into Hws2, W3 into Hws2', W2 into Hmsg, W1 into Hbrace,
    W0 into Hhead, W into Hpay.
  set (tail := match payload with
               | Some (ws3, body) => ws3 +:+ payloadText body
               | None => EmptyString
               end).
  set (res := (ts, lvl, msg,
               match payload with
               | Some (_, body) => Some (payloadText body)
               | None => None
               end)).
  assert (Hhere :
            LOG_REGEX_here
              ("[" +:+ ts +:+ "]" +:+ ws1 +:+ lvl +:+ ws2 +:+ msg +:+ tail)
            = Some res).
  { unfold LOG_REGEX_here. rewrite append_cons, append_nil_l.
    cbn [Re.lit]. rewrite Ascii.eqb_refl.
    rewrite (lazy_star_skip Js.isDot ts EmptyString); [ | exact Hts | ].
    2: { intros a1 a2 E Hne. rewrite append_nil_l.
         destruct a2 as [ | c a2 ]; [ congruence | ].
         rewrite append_cons. cbn [Re.lit].
         destruct (Ascii.eqb "]" c) eqn:Ec; [ | reflexivity ].
         subst ts. apply noPair_app_r in Hts'. cbn [noPair] in Hts'.
         apply andb_true_iff in Hts'. destruct Hts' as [Hc _].
         rewrite Ec in Hc. cbn [negb orb] in Hc.
         destruct a2 as [ | e a2 ].
         - reflexivity.
         - cbn [headNot] in Hc. apply negb_true_iff in Hc.
           rewrite append_cons. unfold Re.greedy_plus. rewrite Hc.
           reflexivity. }
    apply lazy_star_here. rewrite append_nil_l.
    rewrite append_cons, append_nil_l. cbn [Re.lit]. rewrite Ascii.eqb_refl.
    apply greedy_plus_max;
      [ apply nonEmpty_ne, Hws1 | exact Hws1'
      | apply (headNot_app _ Js.isWord);
          [ exact Hlvl | exact Hlvl' | exact word_not_space ]
      | ].
    apply greedy_plus_max;
      [ apply nonEmpty_ne, Hlvl | exact Hlvl'
      | apply (headNot_app _ Js.isSpace);
          [ exact Hws2 | exact Hws2' | exact space_not_word ]
      | ].
    apply greedy_plus_max; [ apply nonEmpty_ne, Hws2 | exact Hws2' | | ].
    { destruct msg as [ | c msg ].
      - destruct payload as [ [ws3 body] | ]; [ | reflexivity ].
        split_andb Hpay. discriminate.
      - rewrite append_cons. exact Hhead. }
    rewrite (lazy_star_skip Js.isDot msg EmptyString); [ | exact Hmsg | ].
    2: { intros m1 m2 E Hne. rewrite append_nil_l.
         apply LOG_REGEX_tail_inside; [ exact Hne | | ].
         - subst msg. eapply noPair_app_r, Hbrace.
         - subst tail. destruct payload as [ [ws3 body] | ];
             [ left | right; reflexivity ].
           split_andb Hpay. subst msg.
           eapply suffix_not_all_space; eassumption. }
    apply lazy_star_here. rewrite append_nil_l. subst tail res.
    destruct payload as [ [ws3 body] | ].
    - split_andb Hpay. apply LOG_REGEX_tail_payload; assumption.
    - reflexivity. }
  rewrite append_cons, append_nil_l in Hhere |- *.
  cbn [LOG_REGEX]. rewrite Hhere. reflexivity.
Qed.

(** ** What a match of [LOG_REGEX] says about the line *)

Section MatcherInversion.
Context {R : Type}.
Implicit Types (k : @Re.Cont R) (p : ascii -> bool).

Lemma lit_inv d s (k' : string -> option R) r :
  Re.lit d s k' = Some r -> exists s', s = String d s' /\ k' s' = Some r.
Proof.
  destruct s as [ | c s ]; simpl; [ discriminate | ].
  destruct (Ascii.eqb d c) eqn:E; [ | discriminate ].
  apply Ascii.eqb_eq in E. subst c. intros H. exists s. split; [ reflexivity | exact H ].
Qed.

Lemma lazy_star_inv p s : forall acc k r,
  Re.lazy_star p acc s k = Some r ->
  exists a rest, s = a +:+ rest /\ Js.forallbS p a = true
                 /\ k (acc +:+ a) rest = Some r.
Proof.
  induction s as [ | c s IH ]; intros acc k r H; simpl in H.
  - destruct (k acc EmptyString) eqn:E; [ | discriminate H ].
    exists EmptyString, EmptyString. rewrite (append_nil_r acc).
    repeat split. congruence.
  - destruct (k acc (String c s)) eqn:E.
    + exists EmptyString, (String c s). rewrite (append_nil_r acc).
      repeat split. congruence.
    + destruct (p c) eqn:Ec; [ | discriminate H ].
      apply IH in H. destruct H as (a & rest & -> & Ha & Hk).
      exists (String c a), rest. rewrite append_cons. split; [ reflexivity | ].
      split; [ simpl; rewrite Ec; exact Ha | ].
      rewrite snoc_append in Hk. exact Hk.
Qed.

Lemma greedy_star_inv p s : forall acc k r,
  Re.greedy_star p acc s k = Some r ->
  exists a rest, s = a +:+ rest /\ Js.forallbS p a = true
                 /\ k (acc +:+ a) rest = Some r.
Proof.
  assert (Hstop : forall acc k r s0, k acc s0 = Some r ->
            exists a rest, s0 = a +:+ rest /\ Js.forallbS p a = true
                           /\ k (acc +:+ a) rest = Some r).
  { intros acc k r s0 H. exists EmptyString, s0. rewrite (append_nil_r acc).
    repeat split. exact H. }
  induction s as [ | c s IH ]; intros acc k r H; simpl in H.
  - apply Hstop, H.
  - destruct (p c) eqn:Ec; [ | apply Hstop, H ].
    destruct (Re.greedy_star p (Re.snoc acc c) s k) eqn:E; [ | apply Hstop, H ].
    injection H as ->. apply IH in E. destruct E as (a & rest & -> & Ha & Hk).
    exists (String c a), rest. rewrite append_cons. split; [ reflexivity | ].
    split; [ simpl; rewrite Ec; exact Ha | ].
    rewrite snoc_append in Hk. exact Hk.
Qed.

Lemma greedy_plus_inv p s k r :
  Re.greedy_plus p s k = Some r ->
  exists a rest, s = a +:+ rest /\ nonEmpty a = true
                 /\ Js.forallbS p a = true /\ k a rest = Some r.
Proof.
  unfold Re.greedy_plus. destruct s as [ | c s ]; [ discriminate | ].
  destruct (p c) eqn:Ec; [ | discriminate ].
  intros H. apply greedy_star_inv in H. destruct H as (a & rest & -> & Ha & Hk).
  exists (String c a), rest. rewrite append_cons. split; [ reflexivity | ].
  split; [ reflexivity | ]. split; [ simpl; rewrite Ec; exact Ha | ].
  rewrite append_cons, append_nil_l in Hk. exact Hk.
Qed.

Lemma eol_inv s (x r : R) : Re.eol s x = Some r -> s = EmptyString /\ r = x.
Proof. destruct s; simpl; [ intros [= <-]; split; reflexivity | discriminate ]. Qed.

End MatcherInversion.

Lemma LOG_REGEX_tail_inv ts lvl msg s r :
  LOG_REGEX_tail ts lvl msg s = Some r ->
  (s = EmptyString /\ r = (ts, lvl, msg, None)) \/
  exists ws3 body,
    s = ws3 +:+ payloadText body /\ nonEmpty ws3 = true
    /\ Js.forallbS Js.isSpace ws3 = true
    /\ Js.forallbS Js.isDot body = true
    /\ r = (ts, lvl, msg, Some (payloadText body)).
Proof.
  unfold LOG_REGEX_tail.
  match goal with
  | |- match ?g with _ => _ end = _ -> _ => destruct g as [ r' | ] eqn:E
  end.
  - intros [= <-]. right.
    apply greedy_plus_inv in E. destruct E as (ws3 & s1 & -> & Hne & Hws & E).
    apply lit_inv in E. destruct E as (s2 & -> & E).
    apply greedy_star_inv in E. destruct E as (body & s3 & -> & Hbody & E).
    apply lit_inv in E. destruct E as (s4 & -> & E).
    apply eol_inv in E. destruct E as [-> ->].
    exists ws3, body. rewrite append_nil_l. repeat split; assumption.
  - intros H. apply eol_inv in H. left. exact H.
Qed.

Lemma LOG_REGEX_here_inv s r :
  LOG_REGEX_here s = Some r ->
  exists ts ws1 lvl ws2 msg tail js,
    s = "[" +:+ ts +:+ "]" +:+ ws1 +:+ lvl +:+ ws2 +:+ msg +:+ tail
    /\ r = (ts, lvl, msg, js)
    /\ Js.forallbS Js.isDot ts = true
    /\ nonEmpty ws1 = true /\ Js.forallbS Js.isSpace ws1 = true
    /\ nonEmpty lvl = true /\ Js.forallbS Js.isWord lvl = true
    /\ nonEmpty ws2 = true /\ Js.forallbS Js.isSpace ws2 = true
    /\ Js.forallbS Js.isDot msg = true
    /\ (tail = EmptyString \/
        exists ws3 body,
          tail = ws3 +:+ payloadText body /\ nonEmpty ws3 = true
          /\ Js.forallbS Js.isSpace ws3 = true
          /\ Js.forallbS Js.isDot body = true).
Proof.
  unfold LOG_REGEX_here. intros H.
  apply lit_inv in H. destruct H as (s1 & -> & H).
  apply lazy_star_inv in H. destruct H as (ts & s2 & -> & D1 & H).
  apply lit_inv in H. destruct H as (s3 & -> & H).
  apply greedy_plus_inv in H. destruct H as (ws1 & s4 & -> & N1 & W1 & H).
  apply greedy_plus_inv in H. destruct H as (lvl & s5 & -> & N2 & W2 & H).
  apply greedy_plus_inv in H. destruct H as (ws2 & s6 & -> & N3 & W3 & H).
  apply lazy_star_inv in H. destruct H as (msg & s7 & -> & D2 & H).
  rewrite !append_nil_l in H.
  apply LOG_REGEX_tail_inv in H.
  destruct H as [ [-> ->] | (ws3 & body & -> & N4 & W4 & D3 & ->) ].
  - exists ts, ws1, lvl, ws2, msg, EmptyString, None.
    do 10 (split; [ assumption || reflexivity | ]). left. reflexivity.
  - exists ts, ws1, lvl, ws2, msg, (ws3 +:+ payloadText body),
      (Some (payloadText body)).
    do 10 (split; [ assumption || reflexivity | ]). right. exists ws3, body.
    repeat split; assumption.
Qed.

Lemma LOG_REGEX_inv line r :
  LOG_REGEX line = Some r ->
  exists pre s, line = pre +:+ s /\ LOG_REGEX_here s = Some r.
Proof.
  induction line as [ | c line IH ]; cbn [LOG_REGEX].
  - discriminate.
  - destruct (LOG_REGEX_here (String c line)) eqn:E.
    + intros [= <-]. exists EmptyString, (String c line).
      split; [ reflexivity | exact E ].
    + intros H. apply IH in H. destruct H as (pre & s & -> & H).
      exists (String c pre), s. split; [ reflexivity | exact H ].
Qed.

(** A line on which [parseLine] reports a record has the shape the
    pattern looks for. *)
Lemma parseLine_holdsShape JSON_parse line rec :
  parseLine JSON_parse line = Returns (Some rec) -> holdsShape line.
Proof.
  unfold parseLine. destruct (LOG_REGEX line) as [ r | ] eqn:E; [ | discriminate ].
  intros _. apply LOG_REGEX_inv in E. destruct E as (pre & s & -> & E).
  apply LOG_REGEX_here_inv in E.
  destruct E as (ts & ws1 & lvl & ws2 & msg & tail & js & -> & _ & H).
  exists pre, ts, ws1, lvl, ws2, msg, tail. split; [ reflexivity | exact H ].
Qed.

(** ** Every line of that shape is matched *)

Section MatcherCompleteness.
Context {R : Type}.
Implicit Types (k : @Re.Cont R) (p : ascii -> bool).

(** A quantifier finds a match when its continuation succeeds after some
    run of the class, whichever stop it tries first. *)
Lemma lazy_star_complete p a : forall acc rest k,
  Js.forallbS p a = true -> k (acc +:+ a) rest <> None ->
  Re.lazy_star p acc (a +:+ rest) k <> None.
Proof.
  induction a as [ | c a IH ]; intros acc rest k Hp Hk.
  - rewrite append_nil_r in Hk. rewrite append_nil_l.
    destruct (k acc rest) as [ r | ] eqn:E; [ | congruence ].
    rewrite (lazy_star_here p acc rest k r E). discriminate.
  - cbn [Js.forallbS] in Hp. apply andb_true_iff in Hp. destruct Hp as [Hc Ha].
    rewrite append_cons. cbn [Re.lazy_star].
    destruct (k acc (String c (a +:+ rest))); [ discriminate | ].
    rewrite Hc. apply IH; [ exact Ha | ]. rewrite snoc_append. exact Hk.
Qed.

Lemma greedy_star_stop p acc s k :
  k acc s <> None -> Re.greedy_star p acc s k <> None.
Proof.
  intros Hk. destruct s as [ | c s ]; cbn [Re.greedy_star]; [ exact Hk | ].
  destruct (p c); [ | exact Hk ].
  destruct (Re.greedy_star p (Re.snoc acc c) s k); [ discriminate | exact Hk ].
Qed.

Lemma greedy_star_complete p a : forall acc rest k,
  Js.forallbS p a = true -> k (acc +:+ a) rest <> None ->
  Re.greedy_star p acc (a +:+ rest) k <> None.
Proof.
  induction a as [ | c a IH ]; intros acc rest k Hp Hk.
  - rewrite append_nil_r in Hk. rewrite append_nil_l.
    apply greedy_star_stop, Hk.
  - cbn [Js.forallbS] in Hp. apply andb_true_iff in Hp. destruct Hp as [Hc Ha].
    rewrite append_cons. cbn [Re.greedy_star]. rewrite Hc.
    specialize (IH (Re.snoc acc c) rest k Ha).
    rewrite snoc_append in IH. specialize (IH Hk).
    destruct (Re.greedy_star p (Re.snoc acc c) (a +:+ rest) k);
      [ discriminate | congruence ].
Qed.

Lemma greedy_plus_complete p a rest k :
  nonEmpty a = true -> Js.forallbS p a = true -> k a rest <> None ->
  Re.greedy_plus p (a +:+ rest) k <> None.
Proof.
  intros Hne Hp Hk. destruct a as [ | c a ]; [ discriminate Hne | ].
  cbn [Js.forallbS] in Hp. apply andb_true_iff in Hp. destruct Hp as [Hc Ha].
  rewrite append_cons. unfold Re.greedy_plus. rewrite Hc.
  apply greedy_star_complete; [ exact Ha | ].
  rewrite append_cons, append_nil_l. exact Hk.
Qed.

End MatcherCompleteness.

Lemma LOG_REGEX_tail_complete ts lvl msg tail :
  (tail = EmptyString \/
   exists ws3 body,
     tail = ws3 +:+ payloadText body /\ nonEmpty ws3 = true
     /\ Js.forallbS Js.isSpace ws3 = true
     /\ Js.forallbS Js.isDot body = true) ->
  LOG_REGEX_tail ts lvl msg tail <> None.
Proof.
  intros [ -> | (ws3 & body & -> & Hne & Hws & Hbody) ].
  - discriminate.
  - rewrite LOG_REGEX_tail_payload by assumption. discriminate.
Qed.

Lemma LOG_REGEX_complete pre s :
  LOG_REGEX_here s <> None -> LOG_REGEX (pre +:+ s) <> None.
Proof.
  intros Hs. induction pre as [ | c pre IH ].
  - rewrite append_nil_l. destruct s as [ | c s ]; cbn [LOG_REGEX].
    + destruct (LOG_REGEX_here EmptyString); [ discriminate | congruence ].
    + destruct (LOG_REGEX_here (String c s)); [ discriminate | congruence ].
  - rewrite append_cons. cbn [LOG_REGEX].
    destruct (LOG_REGEX_here (String c (pre +:+ s))); [ discriminate | exact IH ].
Qed.

(** A line of the shape the pattern looks for gives a record. *)
Lemma holdsShape_parseLine JSON_parse line :
  holdsShape line -> exists rec, parseLine JSON_parse line = Returns (Some rec).
Proof.
  intros (pre & ts & ws1 & lvl & ws2 & msg & tail & -> & D1 & N1 & W1 & N2
          & W2 & N3 & W3 & D2 & Htail).
  assert (Hm : LOG_REGEX
                 (pre +:+ "[" +:+ ts +:+ "]" +:+ ws1 +:+ lvl +:+ ws2 +:+ msg
                      +:+ tail) <> None).
  { apply LOG_REGEX_complete. unfold LOG_REGEX_here.
    rewrite append_cons, append_nil_l. cbn [Re.lit]. rewrite Ascii.eqb_refl.
    apply lazy_star_complete; [ exact D1 | ].
    rewrite append_cons, append_nil_l. cbn [Re.lit]. rewrite Ascii.eqb_refl.
    apply greedy_plus_complete; [ exact N1 | exact W1 | ].
    apply greedy_plus_complete; [ exact N2 | exact W2 | ].
    apply greedy_plus_complete; [ exact N3 | exact W3 | ].
    apply lazy_star_complete; [ exact D2 | ].
    apply LOG_REGEX_tail_complete, Htail. }
  unfold parseLine.
  destruct (LOG_REGEX _) as [ [[[ts' lvl'] msg'] js] | ]; [ | congruence ].
  eexists. reflexivity.
Qed.

(** C7, as the code has it.  On a line of the grammar whose pieces the
    pattern finds again as they are ([wellFormed]), with or without text
    before its bracket, [parseLine] returns the timestamp, the level, the
    message without the payload and the white space before it, and as
    payload what [JSON.parse] makes of the braced text, or [null] when
    [JSON.parse] throws.  A line gives [null] exactly when no part of it,
    from some bracket to its end, has the shape the pattern looks for.
    [parseLine] returns on every line. *)
Theorem parseLine_finds_the_pieces
  (JSON_parse : string -> JsResult Json) (pre : string) (lp : LineParts)
  (Hpre : noChar "[" pre = true) (Hwf : wellFormed lp = true) :
  parseLine JSON_parse (pre +:+ render lp)
  = Returns (Some (mkParsedLog (lp_timestamp lp) (lp_level lp)
                               (lp_message lp) (payloadOf JSON_parse lp)))
  /\ (forall line,
        parseLine JSON_parse line = Returns None <-> ~ holdsShape line)
  /\ (forall line, exists r, parseLine JSON_parse line = Returns r).
Proof.
  split; [ | split ].
  - unfold parseLine. rewrite (LOG_REGEX_render pre lp Hpre Hwf).
    unfold payloadOf. destruct (lp_payload lp) as [ [ws3 body] | ]; reflexivity.
  - intros line. split.
    + intros Hnull Hc.
      destruct (holdsShape_parseLine JSON_parse line Hc) as (rec & E).
      congruence.
    + intros Hnot.
      destruct (parseLine_returns JSON_parse line) as ([ rec | ] & E);
        [ | exact E ].
      destruct Hnot. eapply parseLine_holdsShape, E.
  - apply parseLine_returns.
Qed.

Lemma parseLine_finds_the_pieces_witness :
  noChar "[" "worker-3 | " = true /\
  wellFormed sampleParts = true /\
  parseLine sampleParse ("worker-3 | " +:+ render sampleParts)
  = Returns (Some (mkParsedLog "2024-05-01T10:00:00Z" "INFO"
                               "login from 10.0.0.1"
                               (JObj [("ip", JStr "10.0.0.1")]))).
Proof.
  split; [ reflexivity | ]. split; [ reflexivity | ].
  exact (proj1 (parseLine_finds_the_pieces sampleParse "worker-3 | "
                  sampleParts eq_refl eq_refl)).
Defined.

(** C7 as stated fails twice.  The line
    [[t] INFO user {id} logged {"a":1}] is a line of the grammar, with the
    message [user {id} logged] and a payload [JSON.parse] accepts; yet the
    record has the message [user] and a [null] payload, the pattern taking
    everything from the first brace on for the payload.  And [junkLine],
    which no pieces of the grammar make up, gives a record and not
    [null], the pattern not being tied to the start of the line. *)
Lemma parseLine_departs_from_the_grammar :
  (grammarPieces braceParts = true /\
   payloadOf braceParse braceParts = JObj [("a", JNum "1")] /\
   parseLine braceParse (render braceParts)
   = Returns (Some (mkParsedLog "t" "INFO" "user" JNull)) /\
   parseLine braceParse (render braceParts)
   <> Returns (Some (mkParsedLog (lp_timestamp braceParts)
                                 (lp_level braceParts)
                                 (lp_message braceParts)
                                 (payloadOf braceParse braceParts)))) /\
  ((forall lp, render lp <> junkLine) /\
   parseLine rejectJson junkLine
   = Returns (Some (mkParsedLog "t" "INFO" "hi" JNull)) /\
   parseLine rejectJson junkLine <> Returns None).
Proof.
  split; [ split; [ | split; [ | split ] ] | split; [ | split ] ].
  - reflexivity.
  - reflexivity.
  - vm_compute. reflexivity.
  - vm_compute. discriminate.
  - intros lp. unfold render. rewrite append_cons. discriminate.
  - vm_compute. reflexivity.
  - vm_compute. discriminate.
Qed.

(** ** [downloadFile] *)

Lemma sleep_spec env id ms w :
  exists w',
    sleep env id ms w = (Returns tt, w') /\
    downloads w' = downloads w /\
    files w' = files w /\
    slept w' = slept w ++ [ms].
Proof.
  unfold sleep, bind, emit, modify.
  match goal with
  | |- context [ suspend env id ?w0 ] =>
      destruct (suspend_spec env id w0) as (w' & E & Hd & Hf & Hs & _)
  end.
  exists w'. rewrite E. split; [ reflexivity | ].
  split; [ exact Hd | ]. split; [ exact Hf | ].
  rewrite Hs. unfold slept at 1. cbn [trace].
  rewrite slept_cons. fold_obs. reflexivity.
Qed.

Lemma downloadAttempt_spec env filePath id w :
  exists r w',
    downloadAttempt env filePath id w = (r, w') /\
    downloads w' = S (downloads w) /\
    slept w' = slept w /\
    match attemptError (attempt env (downloads w)) with
    | Some e => r = Throws e /\ files w' = files w
    | None =>
        exists path,
          r = Returns path /\
          files w' = <[path := attemptContent (attempt env (downloads w))]>
                       (files w)
    end.
Proof.
  unfold downloadAttempt. unfold bind at 1.
  destruct (suspend_spec env id w) as (w1 & E & Hd & Hf & Hs & _).
  rewrite E. unfold bind at 1. unfold nextDownload.
  destruct (attemptError (attempt env (downloads w))) as [ e | ] eqn:Ea.
  - eexists _, _. split; [ rewrite Hd, Ea; reflexivity | ].
    split; [ reflexivity | ]. split; [ exact Hs | ].
    split; [ reflexivity | exact Hf ].
  - eexists _, _. split; [ rewrite Hd, Ea; reflexivity | ].
    split; [ reflexivity | ].
    split.
    + unfold slept at 1. cbn [trace]. rewrite slept_cons. fold_obs.
      rewrite app_nil_r. exact Hs.
    + eexists. split; [ reflexivity | ]. cbn [files]. rewrite Hf. reflexivity.
Qed.

Lemma downloadLoop_spec env filePath id remaining :
  forall retries w,
    remaining + retries = maxRetries -> 0 < remaining ->
    exists r w' k,
      downloadLoop env remaining retries filePath id w = (r, w') /\
      1 <= k <= remaining /\
      downloads w' = downloads w + k /\
      Forall (fun i => attemptError (attempt env (downloads w + i)) <> None)
             (seq 0 (k - 1)) /\
      slept w' = slept w ++ backoffs (S retries) (k - 1) /\
      match attemptError (attempt env (downloads w + (k - 1))) with
      | None =>
          exists path,
            r = Returns path /\
            files w' !! path
            = Some (attemptContent (attempt env (downloads w + (k - 1))))
      | Some e => k = remaining /\ r = Throws (exhaustedMessage e)
      end.
Proof.
  induction remaining as [ | rem IH ]; intros retries w Hsum Hpos; [ lia | ].
  cbn [downloadLoop]. unfold tryCatch.
  destruct (downloadAttempt_spec env filePath id w)
    as (r1 & w1 & E1 & Hd1 & Hs1 & Hm1).
  rewrite E1.
  destruct (attemptError (attempt env (downloads w))) as [ e | ] eqn:Ea.
  - destruct Hm1 as [-> Hf1]. unfold bind at 1. unfold emit at 1, modify at 1.
    cbn [Nat.leb].
    destruct (Nat.leb maxRetries (S retries)) eqn:Eleb.
    + (* the budget is spent *)
      apply Nat.leb_le in Eleb. unfold maxRetries in *.
      assert (rem = 0) by lia. subst rem.
      eexists _, _, 1. split; [ reflexivity | ].
      split; [ lia | ]. split; [ cbn [downloads]; lia | ].
      split; [ constructor | ].
      split.
      * unfold slept at 1. cbn [trace]. rewrite slept_cons. fold_obs.
        cbn. rewrite !app_nil_r. exact Hs1.
      * replace (downloads w + (1 - 1)) with (downloads w) by lia.
        rewrite Ea. split; reflexivity.
    + (* wait, then try again *)
      apply Nat.leb_gt in Eleb. unfold maxRetries in *.
      unfold bind at 1.
      match goal with
      | |- context [ sleep env id ?ms ?w0 ] =>
          destruct (sleep_spec env id ms w0) as (w2 & E2 & Hd2 & Hf2 & Hs2)
      end.
      rewrite E2.
      destruct (IH (S retries) w2) as (r & w' & k & E & Hk & Hd & Hall & Hs & Hm);
        [ lia | lia | ].
      exists r, w', (S k). split; [ exact E | ].
      cbn [downloads] in Hd2.
      assert (Hw2 : downloads w2 = S (downloads w)) by congruence.
      split; [ lia | ]. split; [ lia | ].
      replace (S k - 1) with (S (k - 1)) by lia.
      split; [ | split ].
      * cbn [seq]. constructor.
        -- rewrite Nat.add_0_r, Ea. discriminate.
        -- rewrite <- seq_shift. apply Forall_map.
           eapply Forall_impl; [ exact Hall | ].
           intros i Hi. cbn beta in *. rewrite Hw2 in Hi.
           replace (downloads w + S i) with (S (downloads w) + i) by lia.
           exact Hi.
      * rewrite Hs, Hs2. unfold slept at 1. cbn [trace]. rewrite slept_cons. fold_obs.
        rewrite Hs1. unfold backoffs. cbn [seq map].
        rewrite app_nil_r, <- app_assoc. reflexivity.
      * rewrite Hw2 in Hm.
        replace (downloads w + S (k - 1)) with (S (downloads w) + (k - 1)) by lia.
        destruct (attemptError (attempt env (S (downloads w) + (k - 1)))).
        -- destruct Hm as [-> ->]. split; reflexivity.
        -- exact Hm.
  - destruct Hm1 as (path & -> & Hf1).
    exists (Returns path), w1, 1. split; [ reflexivity | ].
    split; [ lia | ]. split; [ lia | ]. split; [ constructor | ].
    split; [ cbn; rewrite app_nil_r; exact Hs1 | ].
    replace (downloads w + (1 - 1)) with (downloads w) by lia.
    rewrite Ea. exists path. split; [ reflexivity | ].
    rewrite Hf1. apply lookup_insert_eq.
Qed.

(** C5: [downloadFile] refuses a blank path before any attempt; otherwise
    it makes [k] attempts, [1 <= k <= 3], every one before the last having
    failed; after the [j]-th failure it waits [1000 * 2^j] ms, so the waits
    are 2000, 4000 as far as they go; it returns the path of the written
    file when the last attempt succeeds, and when the third fails it
    throws one error that names the cause of that third failure.  A
    storage that fails twice and then serves the file gives exactly the
    waits 2000 and 4000 and a path. *)
Theorem downloadFile_retry_policy (env : Env) (filePath id : string) (w : World) :
  if String.eqb (Js.trim filePath) EmptyString
  then downloadFile env filePath id w
       = (Throws ("Invalid file path: " +:+ filePath), w)
  else
    exists r w' k,
      downloadFile env filePath id w = (r, w') /\
      1 <= k <= 3 /\
      downloads w' = downloads w + k /\
      Forall (fun i => attemptError (attempt env (downloads w + i)) <> None)
             (seq 0 (k - 1)) /\
      slept w' = slept w ++ backoffs 1 (k - 1) /\
      match attemptError (attempt env (downloads w + (k - 1))) with
      | None =>
          exists path,
            r = Returns path /\
            files w' !! path
            = Some (attemptContent (attempt env (downloads w + (k - 1))))
      | Some cause => k = 3 /\ r = Throws (exhaustedMessage cause)
      end /\
      (attemptError (attempt env (downloads w)) <> None ->
       attemptError (attempt env (downloads w + 1)) <> None ->
       attemptError (attempt env (downloads w + 2)) = None ->
       slept w' = slept w ++ [2000; 4000]%Z /\ exists path, r = Returns path).
Proof.
  unfold downloadFile.
  destruct (String.eqb (Js.trim filePath) EmptyString); [ reflexivity | ].
  destruct (downloadLoop_spec env filePath id 3 0 w)
    as (r & w' & k & E & Hk & Hd & Hall & Hs & Hm); [ reflexivity | lia | ].
  exists r, w', k. split; [ exact E | ].
  split; [ exact Hk | ]. split; [ exact Hd | ]. split; [ exact Hall | ].
  split; [ exact Hs | ]. split; [ exact Hm | ].
  intros H0 H1 H2.
  assert (Hk3 : k = 3).
  { destruct Hk as [Hlo Hhi].
    destruct (decide (k = 1)) as [ -> | ].
    { cbn in Hm. rewrite Nat.add_0_r in Hm.
      destruct (attemptError (attempt env (downloads w))); [ lia | congruence ]. }
    destruct (decide (k = 2)) as [ -> | ].
    { cbn in Hm.
      destruct (attemptError (attempt env (downloads w + 1)));
        [ lia | congruence ]. }
    lia. }
  subst k. cbn in Hm. rewrite H2 in Hm. destruct Hm as (path & -> & _).
  split; [ exact Hs | ]. exists path. reflexivity.
Qed.

(** ** Status writes *)

Lemma updateJobStatus_write_spec env id st p err w :
  exists r w',
    updateJobStatus_write env id st p err w = (r, w') /\
    downloads w' = downloads w /\ files w' = files w /\
    slept w' = slept w /\ timeoutId w' = timeoutId w /\
    match dbError env (dbCalls w) with
    | Some e => r = Throws e /\ statusWrites w' = statusWrites w
    | None => r = Returns tt
    end.
Proof.
  unfold updateJobStatus_write, bind, nextDbCall, emit, modify, throw.
  cbn [dbCalls].
  destruct (dbError env (dbCalls w)) as [ e | ].
  - eexists _, _. split; [ reflexivity | ]. cbn [downloads files timeoutId].
    do 2 (split; [ reflexivity | ]).
    split; [ | split; [ reflexivity | split; [ reflexivity | ] ] ].
    + unfold slept. cbn [trace]. rewrite !slept_cons, !app_nil_r. fold_obs. reflexivity.
    + unfold statusWrites. cbn [trace].
      rewrite !statusWrites_cons, !app_nil_r. fold_obs. reflexivity.
  - eexists _, _. split; [ reflexivity | ]. cbn [downloads files timeoutId].
    do 2 (split; [ reflexivity | ]).
    split; [ | split; reflexivity ].
    unfold slept. cbn [trace]. rewrite !slept_cons, !app_nil_r. fold_obs. reflexivity.
Qed.

Lemma updateJobStatus_spec env id st p err w :
  exists r w',
    updateJobStatus env id st p err w = (r, w') /\
    downloads w' = downloads w /\ files w' = files w /\
    slept w' = slept w /\
    ((forall n, dbError env n = None) -> r = Returns tt) /\
    (forall e, (forall n, dbError env n = Some e) ->
               r = Throws e /\ statusWrites w' = statusWrites w).
Proof.
  unfold updateJobStatus, bind.
  destruct (suspend_spec env id w) as (w1 & E1 & Hd1 & Hf1 & Hs1 & Hw1).
  rewrite E1.
  destruct (updateJobStatus_write_spec env id st p err w1)
    as (r & w' & E & Hd & Hf & Hs & _ & Hm).
  exists r, w'. split; [ exact E | ].
  split; [ congruence | ]. split; [ congruence | ]. split; [ congruence | ].
  split.
  - intros Hok. rewrite Hok in Hm. exact Hm.
  - intros e Hdown. rewrite Hdown in Hm. destruct Hm as [-> Hm].
    split; [ reflexivity | ]. rewrite Hm. apply Hw1.
    intros n. rewrite Hdown. discriminate.
Qed.

Lemma clearTimer_spec w :
  exists w',
    clearTimer w = (Returns tt, w') /\
    downloads w' = downloads w /\ files w' = files w /\
    slept w' = slept w /\ statusWrites w' = statusWrites w /\
    timeoutId w' = None.
Proof.
  unfold clearTimer, bind, get, setTimeoutId, modify, ret.
  destruct (timeoutId w) eqn:E; eexists; (split; [ reflexivity | ]);
    repeat split; try reflexivity. exact E.
Qed.

(** [cleanupJob] never throws. *)
Lemma cleanupJob_spec env id st p err w :
  exists w',
    cleanupJob env id st p err w = (Returns tt, w') /\
    downloads w' = downloads w /\ files w' = files w /\
    slept w' = slept w /\
    (forall e, (forall n, dbError env n = Some e) ->
               statusWrites w' = statusWrites w).
Proof.
  unfold cleanupJob, tryCatch, bind.
  destruct (clearTimer_spec w) as (w1 & E1 & Hd1 & Hf1 & Hs1 & Hw1 & _).
  rewrite E1.
  assert (Hquiet : exists w',
             (Returns tt, w1) = (Returns tt, w') /\
             downloads w' = downloads w /\ files w' = files w /\
             slept w' = slept w /\
             (forall e : string, (forall n, dbError env n = Some e) ->
                        statusWrites w' = statusWrites w)).
  { exists w1. split; [ reflexivity | ]. repeat split; try assumption.
    intros; assumption. }
  destruct st; try exact Hquiet.
  destruct (updateJobStatus_spec env id failed p err w1)
    as (r & w2 & E2 & Hd2 & Hf2 & Hs2 & _ & Hdown).
  rewrite E2. destruct r as [ [] | e ].
  - exists w2. split; [ reflexivity | ].
    split; [ congruence | ]. split; [ congruence | ]. split; [ congruence | ].
    intros e He. destruct (Hdown e He) as [Hr _]. discriminate Hr.
  - eexists. unfold emit, modify. split; [ reflexivity | ].
    cbn [downloads files].
    split; [ congruence | ]. split; [ congruence | ].
    split.
    + unfold slept at 1. cbn [trace]. rewrite slept_cons, app_nil_r. fold_obs. congruence.
    + intros e' He. destruct (Hdown e' He) as [_ Hw2].
      unfold statusWrites at 1. cbn [trace].
      rewrite statusWrites_cons, app_nil_r. fold_obs. congruence.
Qed.

(** ** Runs of the job handler *)

(** C1, at a run where the code departs from it: the timer fires while
    the second of three lines is awaited.  The callback sets [aborted] and
    writes the status [failed] with the timeout message, as C1 says; but
    the scanner tests the copy of [aborted] it was called with, reads the
    two remaining lines, reports a checkpoint, and returns the statistics
    of all three lines, after which the handler writes [completed]. *)
Theorem scanner_never_observes_the_timeout :
  let run := runJob slowScanEnv rejectJson keywordScenario job1 world0 in
  aborted run.2 = true /\
  statusWrites run.2
  = [ (processing, 1, None); (processing, 10, None);
      (failed, 0, Some timeoutMessage);
      (processing, 21, None); (completed, 100, None) ] /\
  exists st, run.1 = Returns st /\ totalEntries st = 3 /\ errorCount st = 1.
Proof.
  split; [ vm_compute; reflexivity | ].
  split; [ vm_compute; reflexivity | ].
  eexists. split; [ vm_compute; reflexivity | ]. split; reflexivity.
Qed.

(** C3, at a run where the code departs from it: the download succeeds,
    the write of the 10% progress fails, the handler's [catch] runs
    [cleanupJob] and throws again, and the scratch file is still on disk.
    On the success path the file is removed, and an [unlinkSync] that
    throws is logged and the job still completes. *)
Theorem scratch_file_survives_a_failed_job :
  (let run := runJob progressWriteFailsEnv rejectJson keywordScenario job1
                     world0 in
   run.1 = Throws "connection reset" /\
   files run.2 !! job1Scratch = Some keywordLine) /\
  (let run := runJob emptyThenFullEnv rejectJson keywordScenario job1 world0 in
   (exists st, run.1 = Returns st) /\ files run.2 = ∅) /\
  (let run := runJob unlinkFailsEnv rejectJson keywordScenario job1 world0 in
   (exists st, run.1 = Returns st) /\
   In (ConsoleError "Error cleaning up temp file") (trace run.2)).
Proof.
  split; [ | split ].
  - split; vm_compute; reflexivity.
  - split; [ eexists; vm_compute; reflexivity | vm_compute; reflexivity ].
  - split; [ eexists; vm_compute; reflexivity | ].
    vm_compute. tauto.
Qed.

(** C2 as stated fails: the store refuses the write of the 10% progress
    and nothing else goes wrong, yet the job ends as failed, with the
    store's error. *)
Lemma progress_write_failure_fails_the_job :
  let run := runJob progressWriteFailsEnv rejectJson keywordScenario job1
                    world0 in
  run.1 = Throws "connection reset" /\
  statusWrites run.2
  = [ (processing, 1, None); (failed, 0, Some "connection reset") ].
Proof. split; vm_compute; reflexivity. Qed.



Lemma handler_unfold env JSON_parse keywords job w :
  handler env JSON_parse keywords job w
  = match tryBlock env JSON_parse keywords job (armed env w) with
    | (Returns st, w') => (Returns st, w')
    | (Throws error, w') => catchBlock env job error w'
    end.
Proof. reflexivity. Qed.

Lemma runJob_throws env JSON_parse keywords job w error w' :
  handler env JSON_parse keywords job w = (Throws error, w') ->
  runJob env JSON_parse keywords job w = (Throws error, afterFailure job error w').
Proof. intros H. unfold runJob, tryCatch, bind. rewrite H. reflexivity. Qed.


(** ** Refused writes on the handler's path *)

Lemma uncaught_same env w w' :
  dbCalls w' = dbCalls w -> trace w' = trace w ->
  uncaught env w' = uncaught env w.
Proof. unfold uncaught. intros -> ->. reflexivity. Qed.

Lemma neutral_ret {A} env (a : A) : neutral env (ret a).
Proof. intros w. reflexivity. Qed.

Lemma neutral_throw {A} env e : neutral env (@throw A e).
Proof. intros w. reflexivity. Qed.

Lemma neutral_get env : neutral env get.
Proof. intros w. reflexivity. Qed.

Lemma neutral_liftResult {A} env (r : JsResult A) : neutral env (liftResult r).
Proof. intros w. reflexivity. Qed.

Lemma neutral_setFiles env fs : neutral env (setFiles fs).
Proof. intros w. reflexivity. Qed.

Lemma neutral_setAborted env b : neutral env (setAborted b).
Proof. intros w. reflexivity. Qed.

Lemma neutral_setTimeoutId env t : neutral env (setTimeoutId t).
Proof. intros w. reflexivity. Qed.

Lemma neutral_nextDownload env : neutral env nextDownload.
Proof. intros w. reflexivity. Qed.

Lemma neutral_nextTick env : neutral env nextTick.
Proof. intros w. reflexivity. Qed.

Lemma neutral_emit env e : isTimerCatch e = false -> neutral env (emit e).
Proof.
  intros He w. unfold uncaught, emit, modify.
  cbn [snd dbCalls trace timerCaught]. rewrite He. reflexivity.
Qed.

Lemma neutral_bind {A B} env (m : M A) (k : A -> M B) :
  neutral env m -> (forall a, neutral env (k a)) -> neutral env (bind m k).
Proof.
  intros Hm Hk w. unfold bind. specialize (Hm w).
  destruct (m w) as [ [ a | e ] w1 ]; cbn [snd] in *.
  - rewrite <- Hm. apply Hk.
  - exact Hm.
Qed.

Lemma neutral_tryCatch {A} env (m : M A) (h : string -> M A) :
  neutral env m -> (forall e, neutral env (h e)) -> neutral env (tryCatch m h).
Proof.
  intros Hm Hh w. unfold tryCatch. specialize (Hm w).
  destruct (m w) as [ [ a | e ] w1 ]; cbn [snd] in *.
  - exact Hm.
  - rewrite <- Hm. apply Hh.
Qed.

Lemma neutral_now env : neutral env (now env).
Proof. intros w. reflexivity. Qed.

Lemma failedWrites_S env n :
  failedWrites env (S n)
  = failedWrites env n + match dbError env n with Some _ => 1 | None => 0 end.
Proof. reflexivity. Qed.

(** The timer callback catches the refusal of its own write. *)
Lemma neutral_onSafetyTimeout env id : neutral env (onSafetyTimeout env id).
Proof.
  intros w.
  unfold onSafetyTimeout, tryCatch, bind, setAborted, modify,
    updateJobStatus_write, bind, nextDbCall, emit, modify, throw.
  cbn [dbCalls]. destruct (dbError env (dbCalls w)) as [ e | ] eqn:E;
    unfold uncaught; cbn [snd dbCalls trace timerCaught isTimerCatch];
    rewrite failedWrites_S, E; eval_labels; lia.
Qed.

Lemma neutral_suspend env id : neutral env (suspend env id).
Proof.
  unfold suspend. apply neutral_bind; [ apply neutral_nextTick | intros t ].
  apply neutral_bind; [ apply neutral_get | intros w0 ].
  destruct (timeoutId w0) as [ deadline | ]; [ | apply neutral_ret ].
  destruct (Z.leb deadline (clock env t)); [ | apply neutral_ret ].
  apply neutral_bind; [ apply neutral_setTimeoutId | intros _ ].
  apply neutral_onSafetyTimeout.
Qed.

Ltac neutral_step :=
  first
    [ apply neutral_ret | apply neutral_throw | apply neutral_get
    | apply neutral_now | apply neutral_liftResult | apply neutral_setFiles
    | apply neutral_setAborted | apply neutral_setTimeoutId
    | apply neutral_nextDownload | apply neutral_nextTick
    | apply neutral_suspend
    | apply neutral_emit; reflexivity
    | apply neutral_bind; [ | intros ? ]
    | apply neutral_tryCatch; [ | intros ? ]
    | match goal with
      | |- neutral _ (match ?x with _ => _ end) => destruct x
      | |- neutral _ (if ?x then _ else _) => destruct x
      end ].

Lemma neutral_sleep env id ms : neutral env (sleep env id ms).
Proof. unfold sleep. repeat neutral_step. Qed.

Lemma neutral_jobUpdateProgress env id n :
  neutral env (jobUpdateProgress env id n).
Proof. unfold jobUpdateProgress. repeat neutral_step. Qed.

Lemma neutral_downloadAttempt env filePath id :
  neutral env (downloadAttempt env filePath id).
Proof. unfold downloadAttempt. repeat neutral_step. Qed.

Lemma neutral_downloadLoop env filePath id remaining :
  forall retries, neutral env (downloadLoop env remaining retries filePath id).
Proof.
  induction remaining as [ | rem IH ]; intros retries; cbn [downloadLoop].
  - apply neutral_throw.
  - apply neutral_tryCatch; [ apply neutral_downloadAttempt | intros e ].
    apply neutral_bind; [ apply neutral_emit; reflexivity | intros _ ].
    destruct (Nat.leb maxRetries (S retries)); [ apply neutral_throw | ].
    apply neutral_bind; [ apply neutral_sleep | intros _ ]. apply IH.
Qed.

Lemma neutral_downloadFile env filePath id :
  neutral env (downloadFile env filePath id).
Proof.
  unfold downloadFile. destruct (String.eqb _ _); [ apply neutral_throw | ].
  apply neutral_downloadLoop.
Qed.

Lemma neutral_memoryCheck env id t v : neutral env (memoryCheck env id t v).
Proof.
  unfold memoryCheck. destruct (Z.ltb _ _); [ | apply neutral_ret ].
  apply neutral_bind; [ apply neutral_get | intros w0 ].
  apply neutral_bind; [ | intros _; apply neutral_ret ].
  destruct (heapHigh env (ticks w0)); [ apply neutral_sleep | apply neutral_ret ].
Qed.

Lemma neutral_sampleFileContent env id path count :
  neutral env (sampleFileContent env id path count).
Proof. unfold sampleFileContent. repeat neutral_step. Qed.

Lemma neutral_removeTemp env path : neutral env (removeTemp env path).
Proof. unfold removeTemp. repeat neutral_step. Qed.

Lemma neutral_clearTimer env : neutral env clearTimer.
Proof. unfold clearTimer. repeat neutral_step. Qed.

(** ** What the handler's own writes do *)

Lemma honest_neutral {A} env (m : M A) : neutral env m -> honest env m.
Proof.
  intros Hm w. specialize (Hm w).
  destruct (m w) as [ [ a | e ] w' ]; [ exact Hm | left; exact Hm ].
Qed.

Lemma honest_bind {A B} env (m : M A) (k : A -> M B) :
  honest env m -> (forall a, honest env (k a)) -> honest env (bind m k).
Proof.
  intros Hm Hk w. unfold bind. specialize (Hm w).
  destruct (m w) as [ [ a | e ] w1 ]; [ | exact Hm ].
  specialize (Hk a w1). rewrite Hm in Hk. exact Hk.
Qed.

(** [catch (error) { console.error(...); throw error; }] *)
Lemma honest_rethrow {A} env (m : M A) ev :
  isTimerCatch ev = false -> honest env m ->
  honest env (tryCatch m (fun error => let* _ := emit ev in throw error)).
Proof.
  intros Hev Hm w. unfold tryCatch. specialize (Hm w).
  destruct (m w) as [ [ a | e ] w1 ]; [ exact Hm | ].
  unfold bind, emit, modify, throw.
  match goal with
  | |- uncaught env ?w2 = _ \/ _ =>
      assert (Hu : uncaught env w2 = uncaught env w1)
        by (pose proof (neutral_emit env ev Hev w1) as Hn; exact Hn)
  end.
  rewrite Hu. exact Hm.
Qed.

Lemma honest_updateJobStatus_write env id st p err :
  honest env (updateJobStatus_write env id st p err).
Proof.
  intros w.
  unfold updateJobStatus_write, bind, nextDbCall, emit, modify, throw.
  cbn [dbCalls]. destruct (dbError env (dbCalls w)) as [ e | ] eqn:E.
  - right. split.
    + unfold uncaught. cbn [dbCalls trace timerCaught isTimerCatch].
      rewrite failedWrites_S, E. eval_labels. lia.
    + exists (dbCalls w). split; [ reflexivity | exact E ].
  - unfold uncaught. cbn [dbCalls trace timerCaught isTimerCatch].
    rewrite failedWrites_S, E. lia.
Qed.

Lemma honest_updateJobStatus env id st p err :
  honest env (updateJobStatus env id st p err).
Proof.
  unfold updateJobStatus.
  apply honest_bind; [ apply honest_neutral, neutral_suspend | intros _ ].
  apply honest_updateJobStatus_write.
Qed.

Lemma honest_updateJobStats env id stats st p :
  honest env (updateJobStats env id stats st p).
Proof.
  unfold updateJobStats.
  apply honest_bind; [ apply honest_neutral, neutral_suspend | intros _ ].
  intros w. unfold bind, nextDbCall, emit, modify, throw.
  cbn [dbCalls]. destruct (dbError env (dbCalls w)) as [ e | ] eqn:E.
  - right. split.
    + unfold uncaught. cbn [dbCalls trace timerCaught isTimerCatch].
      rewrite failedWrites_S, E. eval_labels. lia.
    + exists (dbCalls w). split; [ reflexivity | exact E ].
  - unfold uncaught. cbn [dbCalls trace timerCaught isTimerCatch].
    rewrite failedWrites_S, E. lia.
Qed.

Ltac honest_step :=
  first
    [ apply honest_updateJobStatus | apply honest_updateJobStats
    | apply honest_neutral;
      first [ apply neutral_jobUpdateProgress
            | solve [ repeat neutral_step ] ]
    | apply honest_bind; [ | intros ? ] ].

Lemma honest_checkpoint env id est t st lc bs lmc v :
  honest env (checkpoint env id est t st lc bs lmc v).
Proof.
  unfold checkpoint.
  destruct (_ || _); [ | apply honest_neutral, neutral_ret ].
  destruct (_ || _); [ | apply honest_neutral, neutral_ret ].
  repeat honest_step.
Qed.

Lemma honest_scanLoop env JSON_parse keywords id ab est lines :
  forall v, honest env (scanLoop env JSON_parse keywords id ab est lines v).
Proof.
  induction lines as [ | line rest IH ]; intros v; cbn [scanLoop].
  - apply honest_neutral, neutral_ret.
  - apply honest_bind; [ apply honest_neutral, neutral_suspend | intros _ ].
    destruct ab; [ apply honest_neutral, neutral_ret | ].
    apply honest_bind; [ apply honest_neutral, neutral_now | intros t ].
    apply honest_bind; [ apply honest_neutral, neutral_memoryCheck | intros lmc ].
    apply honest_bind; [ apply honest_neutral, neutral_liftResult | intros parsed ].
    apply honest_bind; [ apply honest_checkpoint | intros v' ].
    apply IH.
Qed.

Lemma honest_processLogFile env JSON_parse keywords path id ab :
  honest env (processLogFile env JSON_parse keywords path id ab).
Proof.
  unfold processLogFile.
  apply honest_bind; [ apply honest_neutral, neutral_now | intros startTime ].
  apply honest_bind; [ apply honest_neutral, neutral_get | intros w0 ].
  destruct (files w0 !! path) as [ content | ];
    [ | apply honest_neutral, neutral_throw ].
  apply honest_bind.
  - apply honest_rethrow; [ reflexivity | apply honest_scanLoop ].
  - intros v. apply honest_neutral. repeat neutral_step.
Qed.

(** The [try] block of the handler returns only when none of its own
    writes was refused. *)
Lemma honest_tryBlock env JSON_parse keywords job :
  honest env (tryBlock env JSON_parse keywords job).
Proof.
  unfold tryBlock.
  apply honest_bind; [ apply honest_updateJobStatus | intros _ ].
  apply honest_bind; [ apply honest_neutral, neutral_downloadFile | intros path ].
  apply honest_bind; [ apply honest_neutral, neutral_get | intros w0 ].
  apply honest_bind; [ apply honest_neutral; repeat neutral_step | intros size ].
  apply honest_bind; [ apply honest_neutral; repeat neutral_step | intros _ ].
  apply honest_bind;
    [ apply honest_neutral, neutral_sampleFileContent | intros _ ].
  apply honest_bind;
    [ apply honest_neutral, neutral_jobUpdateProgress | intros _ ].
  apply honest_bind; [ apply honest_updateJobStatus | intros _ ].
  apply honest_bind; [ apply honest_neutral, neutral_get | intros w1 ].
  apply honest_bind; [ apply honest_processLogFile | intros st ].
  apply honest_bind; [ apply honest_updateJobStats | intros _ ].
  apply honest_bind; [ apply honest_neutral, neutral_removeTemp | intros _ ].
  apply honest_bind; [ apply honest_neutral, neutral_clearTimer | intros _ ].
  apply honest_neutral, neutral_ret.
Qed.

(** Both updates log a refused write and throw the store's error. *)
Lemma updateJobStatus_rethrows env id st p err w0 :
  exists w1,
    suspend env id w0 = (Returns tt, w1) /\
    match dbError env (dbCalls w1) with
    | Some e =>
        exists w2,
          updateJobStatus env id st p err w0 = (Throws e, w2) /\
          trace w2 = ConsoleError "Exception updating job status:"
                       :: ConsoleError "Error updating job status:" :: trace w1
    | None => (updateJobStatus env id st p err w0).1 = Returns tt
    end.
Proof.
  destruct (suspend_spec env id w0) as (w1 & E1 & _).
  exists w1. split; [ exact E1 | ].
  unfold updateJobStatus, bind. rewrite E1.
  unfold updateJobStatus_write, bind, nextDbCall, emit, modify, throw.
  cbn [dbCalls]. destruct (dbError env (dbCalls w1)) as [ e | ].
  - eexists. split; reflexivity.
  - reflexivity.
Qed.

Lemma updateJobStats_rethrows env id stats st p w0 :
  exists w1,
    suspend env id w0 = (Returns tt, w1) /\
    match dbError env (dbCalls w1) with
    | Some e =>
        exists w2,
          updateJobStats env id stats st p w0 = (Throws e, w2) /\
          trace w2 = ConsoleError "Exception updating job stats:"
                       :: ConsoleError "Error updating job stats:" :: trace w1
    | None => (updateJobStats env id stats st p w0).1 = Returns tt
    end.
Proof.
  destruct (suspend_spec env id w0) as (w1 & E1 & _).
  exists w1. split; [ exact E1 | ].
  unfold updateJobStats, bind. rewrite E1.
  unfold nextDbCall, emit, modify, throw.
  cbn [dbCalls]. destruct (dbError env (dbCalls w1)) as [ e | ].
  - eexists. split; reflexivity.
  - reflexivity.
Qed.

(** The timer callback keeps the refusal of its write to itself. *)
Lemma onSafetyTimeout_catches env id w0 :
  exists w1,
    onSafetyTimeout env id w0 = (Returns tt, w1) /\
    aborted w1 = true /\
    match dbError env (dbCalls w0) with
    | Some _ =>
        trace w1 = ConsoleError "Failed to update job status after timeout:"
                     :: ConsoleError "Exception updating job status:"
                     :: ConsoleError "Error updating job status:" :: trace w0
    | None =>
        statusWrites w1 = statusWrites w0 ++ [(failed, 0, Some timeoutMessage)]
    end.
Proof.
  unfold onSafetyTimeout, tryCatch, bind, setAborted, modify,
    updateJobStatus_write, bind, nextDbCall, emit, modify, throw.
  cbn [dbCalls]. destruct (dbError env (dbCalls w0)) as [ e | ].
  - eexists. split; [ reflexivity | ]. split; reflexivity.
  - eexists. split; [ reflexivity | ]. split; [ reflexivity | ].
    unfold statusWrites. cbn [trace].
    rewrite !statusWrites_cons, app_nil_r. reflexivity.
Qed.

Lemma clearTimer_disarms w :
  exists w',
    clearTimer w = (Returns tt, w') /\
    dbCalls w' = dbCalls w /\ trace w' = trace w /\ timeoutId w' = None.
Proof.
  unfold clearTimer, bind, get, setTimeoutId, modify, ret.
  destruct (timeoutId w) eqn:E; eexists; (split; [ reflexivity | ]);
    cbn [dbCalls trace timeoutId]; repeat split; try reflexivity. exact E.
Qed.

(** Without a pending timer a suspension point changes nothing the
    handler can see. *)
Lemma suspend_disarmed env id w :
  timeoutId w = None ->
  exists w',
    suspend env id w = (Returns tt, w') /\
    dbCalls w' = dbCalls w /\ trace w' = trace w.
Proof.
  intros Hnone. unfold suspend, bind, nextTick, get. cbn [timeoutId].
  rewrite Hnone. eexists. split; [ reflexivity | ]. split; reflexivity.
Qed.

Lemma updateJobStatus_write_trace env id st p err w :
  exists w',
    match dbError env (dbCalls w) with
    | Some e =>
        updateJobStatus_write env id st p err w = (Throws e, w') /\
        trace w' = ConsoleError "Exception updating job status:"
                     :: ConsoleError "Error updating job status:" :: trace w
    | None =>
        updateJobStatus_write env id st p err w = (Returns tt, w') /\
        trace w' = Published id st (Some p) err
                     :: DbStatus id st p
                          match err with
                          | Some EmptyString => None
                          | e => e
                          end
                     :: trace w
    end.
Proof.
  unfold updateJobStatus_write, bind, nextDbCall, emit, modify, throw.
  cbn [dbCalls]. destruct (dbError env (dbCalls w)) as [ e | ];
    eexists; split; reflexivity.
Qed.

(** The [catch] block: [cleanupJob] writes the status [failed] with the
    message of the error, keeps a refusal of that write to itself, and
    the error is thrown again. *)
Lemma catchBlock_outcome env job e w1 :
  exists w2,
    catchBlock env job e w1 = (Throws e, w2) /\
    match dbError env (dbCalls w1) with
    | None => statusWrites w2 = statusWrites w1 ++ [(failed, 0, storedError e)]
    | Some _ =>
        statusWrites w2 = statusWrites w1 /\
        head (trace w2)
        = Some (ConsoleError ("Cleanup error for job " +:+ jobId job))
    end.
Proof.
  unfold catchBlock. unfold bind at 1. unfold emit at 1, modify at 1.
  set (wa := mkWorld _ _ _ _ _ _ _).
  assert (Hda : dbCalls wa = dbCalls w1) by reflexivity.
  assert (Hta : trace wa
                = ConsoleError ("Error processing job " +:+ jobId job)
                    :: trace w1) by reflexivity.
  clearbody wa.
  unfold bind at 1. unfold cleanupJob, tryCatch. unfold bind at 1.
  destruct (clearTimer_disarms wa) as (wb & Eb & Hdb & Htb & Hnone).
  rewrite Eb. unfold updateJobStatus. unfold bind at 1.
  destruct (suspend_disarmed env (jobId job) wb Hnone) as (wc & Ec & Hdc & Htc).
  rewrite Ec.
  destruct (updateJobStatus_write_trace env (jobId job) failed 0 (Some e) wc)
    as (wd & Hd).
  assert (Hcalls : dbCalls wc = dbCalls w1) by congruence.
  rewrite Hcalls in Hd.
  assert (Htrace : writesIn (trace wc) = statusWrites w1).
  { rewrite Htc, Htb, Hta, statusWrites_cons, app_nil_r. reflexivity. }
  destruct (dbError env (dbCalls w1)) as [ e' | ]; destruct Hd as [Ed Htd];
    rewrite Ed.
  - eexists. split; [ reflexivity | ]. unfold emit, modify.
    unfold statusWrites at 1. cbn [trace head].
    rewrite statusWrites_cons, app_nil_r, Htd, !statusWrites_cons, !app_nil_r.
    split; [ exact Htrace | reflexivity ].
  - exists wd. split; [ reflexivity | ].
    unfold statusWrites at 1.
    rewrite Htd, !statusWrites_cons, app_nil_r, Htrace.
    destruct e; reflexivity.
Qed.

(** C2, as the code has it.  [updateJobStatus] and [updateJobStats] log a
    refused write and throw the store's error.  The [try] block of the
    handler returns only when every write refused during it was one the
    timer callback made and caught; when a write of its own is refused
    (the status at 1%, the progress at 10%, a checkpoint of the scan, the
    final statistics) the block throws the error of that write, its last.
    Whatever the block throws, the [catch] block has [cleanupJob] write
    the status [failed] with that message and throws it again, so the job
    fails with it; a job that completes has no refused write that went
    uncaught.  The refusal is caught, and only logged, in two places: the
    timer callback and [cleanupJob].  The six runs show each of the four
    writes of the handler failing the job, and each of the two catches
    letting the handler go on. *)
Theorem store_write_failure_fails_the_job
  (env : Env) (JSON_parse : string -> JsResult Json) (keywords : list string)
  (job : JobData) (w : World) :
  (forall id st p err w0,
      exists w1,
        suspend env id w0 = (Returns tt, w1) /\
        match dbError env (dbCalls w1) with
        | Some e =>
            exists w2,
              updateJobStatus env id st p err w0 = (Throws e, w2) /\
              trace w2 = ConsoleError "Exception updating job status:"
                           :: ConsoleError "Error updating job status:"
                           :: trace w1
        | None => (updateJobStatus env id st p err w0).1 = Returns tt
        end)
  /\ (forall id stats st p w0,
        exists w1,
          suspend env id w0 = (Returns tt, w1) /\
          match dbError env (dbCalls w1) with
          | Some e =>
              exists w2,
                updateJobStats env id stats st p w0 = (Throws e, w2) /\
                trace w2 = ConsoleError "Exception updating job stats:"
                             :: ConsoleError "Error updating job stats:"
                             :: trace w1
          | None => (updateJobStats env id stats st p w0).1 = Returns tt
          end)
  /\ match tryBlock env JSON_parse keywords job w with
     | (Returns _, w1) => uncaught env w1 = uncaught env w
     | (Throws e, w1) =>
         uncaught env w1 = uncaught env w \/
         (uncaught env w1 = uncaught env w + 1)%Z /\
         exists n, dbCalls w1 = S n /\ dbError env n = Some e
     end
  /\ match tryBlock env JSON_parse keywords job (armed env w) with
     | (Returns st, w1) =>
         exists w2,
           runJob env JSON_parse keywords job w = (Returns st, w2) /\
           statusWrites w2 = statusWrites w1
     | (Throws e, w1) =>
         exists w2,
           runJob env JSON_parse keywords job w
           = (Throws e, afterFailure job e w2) /\
           match dbError env (dbCalls w1) with
           | None =>
               statusWrites w2
               = statusWrites w1 ++ [(failed, 0, storedError e)]
           | Some _ =>
               statusWrites w2 = statusWrites w1 /\
               head (trace w2)
               = Some (ConsoleError ("Cleanup error for job " +:+ jobId job))
           end
     end
  /\ match runJob env JSON_parse keywords job w with
     | (Returns _, w') => uncaught env w' = uncaught env w
     | (Throws _, _) => True
     end
  /\ (forall id w0,
        exists w1,
          onSafetyTimeout env id w0 = (Returns tt, w1) /\
          aborted w1 = true /\
          match dbError env (dbCalls w0) with
          | Some _ =>
              trace w1
              = ConsoleError "Failed to update job status after timeout:"
                  :: ConsoleError "Exception updating job status:"
                  :: ConsoleError "Error updating job status:" :: trace w0
          | None =>
              statusWrites w1
              = statusWrites w0 ++ [(failed, 0, Some timeoutMessage)]
          end)
  /\ (forall id st p err w0, (cleanupJob env id st p err w0).1 = Returns tt)
  /\ (let run := runJob (writeFailsEnv 0) rejectJson keywordScenario job1
                        world0 in
      run.1 = Throws "connection reset" /\
      statusWrites run.2 = [ (failed, 0, Some "connection reset") ])
  /\ (let run := runJob (writeFailsEnv 1) rejectJson keywordScenario job1
                        world0 in
      run.1 = Throws "connection reset" /\
      statusWrites run.2
      = [ (processing, 1, None); (failed, 0, Some "connection reset") ])
  /\ (let run := runJob checkpointWriteFailsEnv rejectJson keywordScenario
                        job1 world0 in
      run.1 = Throws "connection reset" /\
      In (ConsoleError "Error processing file for job") (trace run.2) /\
      statusWrites run.2
      = [ (processing, 1, None); (processing, 10, None);
          (failed, 0, Some "connection reset") ])
  /\ (let run := runJob (writeFailsEnv 2) rejectJson keywordScenario job1
                        world0 in
      run.1 = Throws "connection reset" /\
      In (ConsoleError "Exception updating job stats:") (trace run.2) /\
      statusWrites run.2
      = [ (processing, 1, None); (processing, 10, None);
          (failed, 0, Some "connection reset") ])
  /\ (let run := runJob timerWriteFailsEnv rejectJson keywordScenario job1
                        world0 in
      (exists st, run.1 = Returns st) /\
      In (ConsoleError "Failed to update job status after timeout:")
         (trace run.2) /\
      statusWrites run.2
      = [ (processing, 1, None); (processing, 10, None);
          (processing, 21, None); (completed, 100, None) ])
  /\ (let run := runJob storeGoesDownEnv rejectJson keywordScenario job1
                        world0 in
      run.1 = Throws "connection reset" /\
      In (ConsoleError "Cleanup error for job j1") (trace run.2) /\
      statusWrites run.2 = [ (processing, 1, None) ]).
Proof.
  assert (Hcatch :
            match tryBlock env JSON_parse keywords job (armed env w) with
            | (Returns st, w1) =>
                exists w2,
                  runJob env JSON_parse keywords job w = (Returns st, w2) /\
                  statusWrites w2 = statusWrites w1 /\
                  uncaught env w2 = uncaught env w1
            | (Throws e, w1) =>
                exists w2,
                  runJob env JSON_parse keywords job w
                  = (Throws e, afterFailure job e w2) /\
                  match dbError env (dbCalls w1) with
                  | None =>
                      statusWrites w2
                      = statusWrites w1 ++ [(failed, 0, storedError e)]
                  | Some _ =>
                      statusWrites w2 = statusWrites w1 /\
                      head (trace w2)
                      = Some (ConsoleError
                                ("Cleanup error for job " +:+ jobId job))
                  end
            end).
  { destruct (tryBlock env JSON_parse keywords job (armed env w))
      as [ [ st | e ] w1 ] eqn:E.
    - eexists. split; [ | split ].
      + unfold runJob, tryCatch, bind. rewrite handler_unfold, E. reflexivity.
      + unfold statusWrites, emit, modify. cbn [trace].
        rewrite statusWrites_cons, app_nil_r. reflexivity.
      + reflexivity.
    - destruct (catchBlock_outcome env job e w1) as (w2 & E2 & H2).
      exists w2. split; [ | exact H2 ].
      apply runJob_throws. rewrite handler_unfold, E. exact E2. }
  repeat match goal with |- _ /\ _ => split end.
  - intros id st p err w0. apply updateJobStatus_rethrows.
  - intros id stats st p w0. apply updateJobStats_rethrows.
  - exact (honest_tryBlock env JSON_parse keywords job w).
  - destruct (tryBlock env JSON_parse keywords job (armed env w))
      as [ [ st | e ] w1 ]; [ | exact Hcatch ].
    destruct Hcatch as (w2 & E & Hw & _). exists w2. split; assumption.
  - pose proof (honest_tryBlock env JSON_parse keywords job (armed env w)) as Hh.
    destruct (tryBlock env JSON_parse keywords job (armed env w))
      as [ [ st | e ] w1 ].
    + destruct Hcatch as (w2 & -> & _ & Hu). rewrite Hu, Hh. reflexivity.
    + destruct Hcatch as (w2 & -> & _). exact I.
  - intros id w0. apply onSafetyTimeout_catches.
  - intros id st p err w0.
    destruct (cleanupJob_spec env id st p err w0) as (w1 & E & _).
    rewrite E. reflexivity.
  - split; vm_compute; reflexivity.
  - split; vm_compute; reflexivity.
  - split; [ | split ]; vm_compute; [ reflexivity | tauto | reflexivity ].
  - split; [ | split ]; vm_compute; [ reflexivity | tauto | reflexivity ].
  - split; [ eexists; vm_compute; reflexivity | ].
    split; vm_compute; [ tauto | reflexivity ].
  - split; [ | split ]; vm_compute; [ reflexivity | tauto | reflexivity ].
Qed.


